(** * READMeth: read-based EM deconvolution of methylation sequencing

    A shallow embedding of [deconvolution_models/epistate_plus.py] and the
    properties of its EM engine.

    Number model.  The program computes on numpy [float64] arrays.  They are
    embedded as lists of real numbers: every arithmetic operation is the
    exact one, [np.log] is [ln] and [np.exp] is [exp].  Rounding, overflow
    and the special values [nan] and [inf] are therefore outside the model,
    except where the program handles them itself ([np.nan_to_num]).  Where
    rounding decides a property (the range of [mu]), the arithmetic is also
    given on binary64 numbers (module [F64]).

    Shape model.  A 1-D array is a [list R], a 2-D array a list of rows.
    numpy raises on operands whose shapes do not agree; the embedding is
    total and the theorems state the shapes they need.  The per-window
    arrays [theta_high] and [theta_low] are 1-D (one probability per CpG
    site, as the constructor's docstring says): this is the shape for which
    [log_likelihood], [calc_mu] and [init_mu_no_log] broadcast a per-read
    vector [log_x_given_H[window]] against a T x C matrix. *)

From Stdlib Require Import Reals Lra Lia List Arith Bool.
From Stdlib Require Floats.
Import ListNotations.
Local Open Scope R_scope.

Abbreviation vector := (list R) (only parsing).
Abbreviation matrix := (list (list R)) (only parsing).

(* ================================================================= *)
(** ** The numpy operations the program uses *)

Module Np.

(** [np.sum] of a 1-D array. *)
Definition sum (v : vector) : R := fold_right Rplus 0 v.

(** [np.mean] of a 1-D array. *)
Definition mean (v : vector) : R := sum v / INR (length v).

(** Elementwise binary operation on arrays of equal shape. *)
Fixpoint zipWith {A B C : Type} (f : A -> B -> C) (l : list A) (l' : list B) : list C :=
  match l, l' with
  | a :: t, b :: t' => f a b :: zipWith f t t'
  | _, _ => []
  end.

Definition shape0 {A : Type} (m : list (list A)) : nat := length m.
Definition shape1 {A : Type} (m : list (list A)) : nat := length (hd [] m).

(** [m.T] for a 2-D array. *)
Definition transpose (m : matrix) : matrix :=
  map (fun j => map (fun row => nth j row 0) m) (seq 0 (shape1 m)).

(** [np.tile(v, (n,1))]: [n] rows, each a copy of [v]. *)
Definition tile (v : vector) (n : nat) : matrix := repeat v n.

(** [np.ones((n,m))]. *)
Definition ones (n m : nat) : matrix := repeat (repeat 1 m) n.

(** [np.sum(m, axis=0)] and [np.sum(m, axis=1)]. *)
Definition sum_axis0 (m : matrix) : vector := map sum (transpose m).
Definition sum_axis1 (m : matrix) : vector := map sum m.

(** Elementwise operations on 2-D arrays of equal shape. *)
Definition mzip (f : R -> R -> R) (a b : matrix) : matrix := zipWith (zipWith f) a b.
Definition mmap (f : R -> R) (a : matrix) : matrix := map (map f) a.

(** [v (op) m] for a 1-D array of shape (n,) and a 2-D array of shape
    (k,n): the vector is broadcast along the rows. *)
Definition bcast (f : R -> R -> R) (v : vector) (m : matrix) : matrix :=
  map (fun row => zipWith f v row) m.

(** [m (op) v], same broadcasting with the matrix on the left. *)
Definition bcast_r (f : R -> R -> R) (m : matrix) (v : vector) : matrix :=
  map (fun row => zipWith f row v) m.

(** [np.matmul] of a 2-D array with a 1-D array. *)
Definition dot (u v : vector) : R := sum (zipWith Rmult u v).
Definition matvec (m : matrix) (v : vector) : vector := map (fun row => dot row v) m.

(** [np.hstack] of a sequence of 2-D arrays with the same number of rows.
    (numpy raises on the empty sequence.) *)
Fixpoint hstack (ms : list matrix) : matrix :=
  match ms with
  | [] => []
  | [m] => m
  | m :: rest => zipWith (@app R) m (hstack rest)
  end.

(** [scipy.special.logsumexp(m, axis=0)]. *)
Definition logsumexp_axis0 (m : matrix) : vector := map ln (sum_axis0 (mmap exp m)).

(** [arr[mask]] for a boolean mask over the first axis. *)
Fixpoint mask_select {A : Type} (mask : list bool) (arr : list A) : list A :=
  match mask, arr with
  | b :: mask', a :: arr' =>
      if b then a :: mask_select mask' arr' else mask_select mask' arr'
  | _, _ => []
  end.

(** The largest finite [float64], [np.finfo(float).max]. *)
Definition DBL_MAX : R := (2 - / 2 ^ 52) * 2 ^ 1023.

(** [np.nan_to_num(np.log(p))]: [np.log] gives [-inf] at 0 and [nan] below
    0; [nan_to_num] turns [-inf] into the most negative finite float and
    [nan] into 0. *)
Definition nan_to_num_log (p : R) : R :=
  if Rlt_dec 0 p then ln p
  else if Req_dec_T p 0 then - DBL_MAX else 0.

(** [b.astype(int)] for a boolean. *)
Definition astype_int (b : bool) : R := if b then 1 else 0.

End Np.

(* ================================================================= *)
(** ** Methylation calls *)

(** Modelled from the spec: the call alphabet of
    [epiread_tools.naming_conventions] (imported with [*], not part of this
    repository's sources).  The spec names its three values. *)
Inductive call : Type := METHYLATED | UNMETHYLATED | NOVAL.

Definition call_eqb (a b : call) : bool :=
  match a, b with
  | METHYLATED, METHYLATED | UNMETHYLATED, UNMETHYLATED | NOVAL, NOVAL => true
  | _, _ => false
  end.

(** A window's reads: C reads by M CpG sites. *)
Abbreviation reads := (list (list call)) (only parsing).

(** [x == v] for a window [x]. *)
Definition eq_mask (v : call) (x : reads) : list (list bool) :=
  map (map (fun cell => call_eqb cell v)) x.

(** [(~(x == NOVAL)).any()] *)
Definition has_value (x : reads) : bool :=
  existsb (existsb negb) (eq_mask NOVAL x).

(* ================================================================= *)
(** ** The store of array objects

    [add_pseudocounts] writes into the arrays it is given.  The lambda
    arrays are therefore kept in a store, and [lambda_t] is a sequence of
    references into it. *)

Definition addr := nat.
Definition heap := addr -> vector.

Definition store (h : heap) (a : addr) (v : vector) : heap :=
  fun b => if Nat.eqb b a then v else h b.

(** [pseudocount = 1e-10] *)
Definition pseudocount : R := 1e-10.

(** [arr[arr==1] -= self.pseudocount] *)
Definition sub_where_one (arr : vector) : vector :=
  map (fun v => if Req_dec_T v 1 then v - pseudocount else v) arr.

(** [arr[arr==0] += self.pseudocount] *)
Definition add_where_zero (arr : vector) : vector :=
  map (fun v => if Req_dec_T v 0 then v + pseudocount else v) arr.

(** The loop of [add_pseudocounts] over [list_of_arrays]. *)
Fixpoint add_pseudocounts_loop (h : heap) (list_of_arrays : list addr) : heap :=
  match list_of_arrays with
  | [] => h
  | arr :: rest =>
      add_pseudocounts_loop (store h arr (add_where_zero (sub_where_one (h arr)))) rest
  end.

(** [add_pseudocounts]: the store after the loop, and the returned object,
    which is the argument itself. *)
Definition add_pseudocounts (h : heap) (list_of_arrays : list addr) : heap * list addr :=
  (add_pseudocounts_loop h list_of_arrays, list_of_arrays).

(* ================================================================= *)
(** ** The engine *)

Record READMeth : Type := mkREADMeth {
  x : list reads;
  x_c_v : list bool;
  Lt_obj : list addr;          (* self.Lt, as array objects *)
  Lt : list vector;            (* the contents of those objects *)
  thetaH : list vector;
  thetaL : list vector;
  log_Lt : list vector;
  log_one_minus_Lt : list vector;
  num_iterations : nat;
  convergence_criteria : R;
  x_c_m : list (list (list bool));
  x_c_u : list (list (list bool));
  t : nat;
  c : nat;
  m : nat;
  alpha : option vector;
  log_x_given_H : list vector;
  log_x_given_L : list vector
}.

(** [filter_no_coverage]: the four arrays indexed by the mask [x_c_v]. *)
Definition filter_no_coverage {A B C : Type}
    (mask : list bool) (x0 : list reads) (Lt0 : list A) (thetaH0 : list B) (thetaL0 : list C)
    : list reads * list A * list B * list C :=
  (Np.mask_select mask x0, Np.mask_select mask Lt0,
   Np.mask_select mask thetaH0, Np.mask_select mask thetaL0).

(** [calc_x_given_prob], on the fields of [self] it reads. *)
Definition calc_x_given_prob (x : list reads) (x_c_m x_c_u : list (list (list bool)))
    (prob : list vector) : list vector :=
  map (fun window =>
         let x_c_m := map (map Np.astype_int) (nth window x_c_m []) in
         let x_c_u := map (map Np.astype_int) (nth window x_c_u []) in
         let log_prob := map Np.nan_to_num_log (nth window prob []) in
         let log_one_minus_prob :=
           map Np.nan_to_num_log (map (fun p => 1 - p) (nth window prob [])) in
         Np.zipWith Rplus (Np.matvec x_c_m log_prob) (Np.matvec x_c_u log_one_minus_prob))
      (seq 0 (length x)).

(** [READMeth.__init__] *)
Definition READMeth_init (h : heap) (mixtures : list reads) (lambda_t : list addr)
    (theta_high theta_low : list vector) (num_iterations : nat)
    (convergence_criteria : R) (alpha : option vector) : heap * READMeth :=
  let x0 := mixtures in
  let x_c_v := map has_value x0 in
  let '(h1, Lt0) := add_pseudocounts h lambda_t in
  let '(x, Lt_obj, thetaH, thetaL) := filter_no_coverage x_c_v x0 Lt0 theta_high theta_low in
  let Lt := map h1 Lt_obj in
  let log_Lt := map (map ln) Lt in
  let log_one_minus_Lt := map (map (fun l => ln (1 - l))) Lt in
  let x_c_m := map (eq_mask METHYLATED) x in
  let x_c_u := map (eq_mask UNMETHYLATED) x in
  let t := length (nth 0 Lt []) in
  let c := list_sum (map Np.shape0 x) in
  let m := list_sum (map Np.shape1 x) in
  let log_x_given_H := calc_x_given_prob x x_c_m x_c_u thetaH in
  let log_x_given_L := calc_x_given_prob x x_c_m x_c_u thetaL in
  (h1,
   mkREADMeth x x_c_v Lt_obj Lt thetaH thetaL log_Lt log_one_minus_Lt
     num_iterations convergence_criteria x_c_m x_c_u t c m alpha
     log_x_given_H log_x_given_L).

(** [log_likelihood].  [logsumexp([A, B], axis=0)] of two 2-D arrays is
    the elementwise [log(exp a + exp b)]. *)
Definition log_likelihood (self : READMeth) (alpha : vector) : R :=
  fold_left
    (fun ll window =>
       let log_lambda := nth window (log_Lt self) [] in
       let log_one_minus_lambda := nth window (log_one_minus_Lt self) [] in
       let logH := nth window (log_x_given_H self) [] in
       let logL := nth window (log_x_given_L self) [] in
       let t_c := Np.ones (length log_lambda) (length logH) in
       let a :=
         Np.mzip (fun u v => ln (exp u + exp v))
           (Np.mzip Rplus
              (Np.transpose (Np.bcast Rmult log_lambda (Np.transpose t_c)))
              (Np.bcast Rmult logH t_c))
           (Np.mzip Rplus
              (Np.transpose (Np.bcast Rmult log_one_minus_lambda (Np.transpose t_c)))
              (Np.bcast Rmult logL t_c)) in
       let b :=
         Np.logsumexp_axis0
           (Np.mzip Rplus
              (Np.transpose (Np.bcast Rmult (map ln alpha) (Np.transpose t_c))) a) in
       ll + Np.sum b)
    (seq 0 (length (x self))) 0.

(** [calc_mu]; [alpha] is [self.alpha] at the time of the call. *)
Definition calc_mu (self : READMeth) (alpha : vector) (z : list matrix) : list vector :=
  map (fun window =>
         let t_c := Np.ones (length alpha) (Np.shape0 (nth window (x_c_m self) [])) in
         let log_high :=
           Np.logsumexp_axis0
             (Np.mzip Rplus
                (Np.mzip Rplus
                   (Np.transpose
                      (Np.bcast Rmult (nth window (log_Lt self) []) (Np.transpose t_c)))
                   (Np.bcast Rmult (nth window (log_x_given_H self) []) t_c))
                (Np.mmap ln (nth window z []))) in
         let log_low :=
           Np.logsumexp_axis0
             (Np.mzip Rplus
                (Np.mzip Rplus
                   (Np.transpose
                      (Np.bcast Rmult (nth window (log_one_minus_Lt self) [])
                         (Np.transpose t_c)))
                   (Np.bcast Rmult (nth window (log_x_given_L self) []) t_c))
                (Np.mmap ln (nth window z []))) in
         let log_mu :=
           Np.zipWith Rminus log_high (Np.logsumexp_axis0 [log_high; log_low]) in
         map exp log_mu)
      (seq 0 (length (x self))).

(** [calc_z] *)
Definition calc_z (self : READMeth) (mu : list vector) (alpha : vector) : list matrix :=
  map (fun window =>
         let T := length alpha in
         let C := Np.shape0 (nth window (x_c_m self) []) in
         let mu_win := Np.tile (nth window mu []) T in
         let Lt_win := Np.transpose (Np.tile (nth window (Lt self) []) C) in
         let alpha_win := Np.transpose (Np.tile alpha C) in
         let z_win :=
           Np.mzip Rplus
             (Np.mzip Rmult (Np.mzip Rmult mu_win Lt_win) alpha_win)
             (Np.mzip Rmult
                (Np.mzip Rmult (Np.mmap (fun v => 1 - v) mu_win)
                   (Np.mmap (fun v => 1 - v) Lt_win))
                alpha_win) in
         Np.bcast_r Rdiv z_win (Np.sum_axis0 z_win))
      (seq 0 (length (x self))).

(** [init_alpha]: the value of [self.alpha] after the call.  [uniform] is
    the random source: [uniform n] is what [np.random.uniform(size=n)]
    returns. *)
Definition init_alpha (uniform : nat -> vector) (self : READMeth) : vector :=
  match alpha self with
  | None =>
      let alpha := uniform (t self) in
      map (fun v => v / Np.sum alpha) alpha
  | Some alpha => alpha
  end.

(** [init_mu_no_log]; [alpha] is [self.alpha]. *)
Definition init_mu_no_log (self : READMeth) (alpha : vector) : list vector :=
  map (fun window =>
         let t_c := Np.ones (length alpha) (Np.shape0 (nth window (x_c_m self) [])) in
         let high :=
           Np.sum_axis0
             (Np.bcast Rmult (map exp (nth window (log_x_given_H self) []))
                (Np.transpose
                   (Np.bcast Rmult (Np.zipWith Rmult alpha (nth window (Lt self) []))
                      (Np.transpose t_c)))) in
         let low :=
           Np.sum_axis0
             (Np.bcast Rmult (map exp (nth window (log_x_given_L self) []))
                (Np.transpose
                   (Np.bcast Rmult
                      (Np.zipWith Rmult alpha
                         (map (fun l => 1 - l) (nth window (Lt self) [])))
                      (Np.transpose t_c)))) in
         Np.zipWith Rdiv high (Np.zipWith Rplus high low))
      (seq 0 (length (thetaH self))).

(** [maximization] *)
Definition maximization (self : READMeth) (z : list matrix) : vector :=
  let all_z := Np.hstack z in
  let new_alpha := map (fun s => s / INR (c self)) (Np.sum_axis1 all_z) in
  map (fun a => a / Np.sum new_alpha) new_alpha.

(** The relative change [alpha_diff] of [test_convergence]. *)
Definition alpha_diff (alpha new_alpha : vector) : R :=
  Np.mean (map Rabs (Np.zipWith Rminus new_alpha alpha)) / Np.mean (map Rabs alpha).

(** [test_convergence]; [alpha] is [self.alpha]. *)
Definition test_convergence (self : READMeth) (alpha new_alpha : vector) : bool :=
  if Rlt_dec (alpha_diff alpha new_alpha) (convergence_criteria self) then true else false.

(** The variables of [em] that change across iterations: the fields
    [self.alpha] and [self.z], and the locals [mu], [ll], [new_alpha], [i]. *)
Record em_state : Type := mk_state {
  st_alpha : vector;
  st_z : list matrix;
  st_mu : list vector;
  st_ll : list R;
  st_new_alpha : vector;
  st_i : nat
}.

(** One pass through the body of the [for] loop of [em]; the boolean tells
    whether the pass ended in [break]. *)
Definition em_body (self : READMeth) (i : nat) (st : em_state) : bool * em_state :=
  let ll := st_ll st ++ [log_likelihood self (st_alpha st)] in
  let z := calc_z self (st_mu st) (st_alpha st) in
  let new_alpha := maximization self z in
  let mu := calc_mu self (st_alpha st) z in
  if negb (Nat.eqb i 0) && test_convergence self (st_alpha st) new_alpha
  then (true, mk_state (st_alpha st) z mu ll new_alpha i)
  else (false, mk_state new_alpha z mu ll new_alpha i).

(** [for i in rng: body], with [break]. *)
Fixpoint for_range (body : nat -> em_state -> bool * em_state) (rng : list nat)
    (st : em_state) : em_state :=
  match rng with
  | [] => st
  | i :: rest =>
      let (brk, st') := body i st in
      if brk then st' else for_range body rest st'
  end.

(** The state in which [em] enters its loop, and the state in which it
    leaves it when the loop is [for i in range(n)]. *)
Definition em_start (uniform : nat -> vector) (self : READMeth) : em_state :=
  let alpha := init_alpha uniform self in
  let mu := init_mu_no_log self alpha in
  mk_state alpha [] mu [] [] 0.

Definition em_run (uniform : nat -> vector) (self : READMeth) (n : nat) : em_state :=
  for_range (em_body self) (seq 0 n) (em_start uniform self).

(** [em]: returns [self.alpha, i]. *)
Definition em (uniform : nat -> vector) (self : READMeth) : vector * nat :=
  let st := em_run uniform self (num_iterations self) in
  (st_alpha st, st_i st).

(** The engine as [em] leaves it: [self.alpha] holds the alpha of the last
    loop state.  (A later call of [em] on the same object starts from it.) *)
Definition em_self (uniform : nat -> vector) (self : READMeth) : READMeth :=
  let st := em_run uniform self (num_iterations self) in
  mkREADMeth (x self) (x_c_v self) (Lt_obj self) (Lt self) (thetaH self) (thetaL self)
    (log_Lt self) (log_one_minus_Lt self) (num_iterations self)
    (convergence_criteria self) (x_c_m self) (x_c_u self) (t self) (c self) (m self)
    (Some (st_alpha st)) (log_x_given_H self) (log_x_given_L self).

(* ================================================================= *)
(** ** Definitions used to state the properties *)

(** [tab n f] is the list [f 0; ...; f (n-1)]. *)
Definition tab {A : Type} (n : nat) (f : nat -> A) : list A := map f (seq 0 n).

(** [v] is the vector with entries [f 0 .. f (n-1)]; [a] is the n x k matrix
    with entries [g i j]. *)
Definition is_vec (v : vector) (n : nat) (f : nat -> R) : Prop := v = tab n f.
Definition is_mat (a : matrix) (n k : nat) (g : nat -> nat -> R) : Prop :=
  a = tab n (fun i => tab k (g i)).

(** A 2-D array of shape (T, C). *)
Definition has_shape (T C : nat) (a : matrix) : Prop :=
  length a = T /\ Forall (fun row => length row = C) a.

(** The log-likelihood of one call at a site of methylation probability
    [theta], with the logarithm the program uses. *)
Definition site_loglik (v : call) (theta : R) : R :=
  match v with
  | METHYLATED => Np.nan_to_num_log theta
  | UNMETHYLATED => Np.nan_to_num_log (1 - theta)
  | NOVAL => 0
  end.

(** The Bernoulli log-likelihood of a read as the specification writes it:
    the sum over sites of
    [methylated_indicator * log(theta) + unmethylated_indicator * log(1-theta)]. *)
Definition bernoulli_loglik (read : list call) (theta : vector) : R :=
  Np.sum
    (Np.zipWith
       (fun v th =>
          Np.astype_int (call_eqb v METHYLATED) * ln th
          + Np.astype_int (call_eqb v UNMETHYLATED) * ln (1 - th))
       read theta).

(** The unnormalised responsibility of cell type [t0] for read [r]:
    [mu[r]*lambda[t0]*alpha[t0] + (1-mu[r])*(1-lambda[t0])*alpha[t0]]. *)
Definition z_raw (mu_win Lt_win alpha : vector) (t0 r : nat) : R :=
  nth r mu_win 0 * nth t0 Lt_win 0 * nth t0 alpha 0
  + (1 - nth r mu_win 0) * (1 - nth t0 Lt_win 0) * nth t0 alpha 0.

(** The log-space mixture [calc_mu] forms for read [r]:
    [logsumexp_t (log_w[t] + logp[r] + log z[t,r])]. *)
Definition log_mix (log_w logp : vector) (z_win : matrix) (T r : nat) : R :=
  ln (Np.sum
        (tab T (fun t0 =>
                  exp (nth t0 log_w 0 * 1 + nth r logp 0 * 1
                       + ln (nth r (nth t0 z_win []) 0))))).

(** The mixture [init_mu_no_log] forms for read [r]:
    [sum_t exp(logp[r]) * (alpha[t] * w[t])]. *)
Definition init_mix (logp alpha : vector) (wts : nat -> R) (T r : nat) : R :=
  Np.sum (tab T (fun t0 => exp (nth r logp 0) * (nth t0 alpha 0 * wts t0 * 1))).

(** The positions a boolean mask keeps, in increasing order. *)
Definition kept (mask : list bool) : list nat :=
  filter (fun k => nth k mask false) (seq 0 (length mask)).

(** The responsibility mass of cell type [t0] over all reads of all windows. *)
Definition total_mass (z : list matrix) (t0 : nat) : R :=
  Np.sum (map (fun z_win => Np.sum (nth t0 z_win [])) z).

(** Constructor arguments on which the EM iteration is well defined: one
    lambda array, one [theta_high] and one [theta_low] per window, at least
    one window with an informative read, and every lambda array a vector of
    [T >= 1] probabilities. *)
Definition valid_input (h : heap) (mixtures : list reads) (lambda_t : list addr)
    (theta_high theta_low : list vector) (T : nat) : Prop :=
  length lambda_t = length mixtures
  /\ length theta_high = length mixtures
  /\ length theta_low = length mixtures
  /\ (0 < T)%nat
  /\ existsb has_value mixtures = true
  /\ Forall (fun a => length (h a) = T /\ Forall (fun v => 0 <= v <= 1) (h a)) lambda_t.

(** A proportion vector: [T] positive entries summing to 1. *)
Definition proportions (T : nat) (a : vector) : Prop :=
  length a = T /\ Forall (fun v => 0 < v) a /\ Np.sum a = 1.

(** The initial [alpha] is usable: a supplied one is a proportion vector;
    otherwise the random draw has [T] positive entries. *)
Definition valid_alpha (uniform : nat -> vector) (alpha : option vector) (T : nat) : Prop :=
  match alpha with
  | Some a => proportions T a
  | None => length (uniform T) = T /\ Forall (fun v => 0 < v) (uniform T)
  end.

(** What the constructor establishes on valid input, for [T] cell types. *)
Definition em_ready (self : READMeth) (T : nat) : Prop :=
  (0 < T)%nat
  /\ x self <> []
  /\ Forall (fun w => w <> []) (x self)
  /\ x_c_m self = map (eq_mask METHYLATED) (x self)
  /\ length (Lt self) = length (x self)
  /\ Forall (fun l => length l = T /\ Forall (fun v => 0 < v < 1) l) (Lt self)
  /\ log_Lt self = map (map ln) (Lt self)
  /\ log_one_minus_Lt self = map (map (fun l => ln (1 - l))) (Lt self)
  /\ length (thetaH self) = length (x self)
  /\ length (log_x_given_H self) = length (x self)
  /\ length (log_x_given_L self) = length (x self)
  /\ (forall w, (w < length (x self))%nat ->
        length (nth w (log_x_given_H self) []) = length (nth w (x self) [])
        /\ length (nth w (log_x_given_L self) []) = length (nth w (x self) []))
  /\ c self = list_sum (map (@length (list call)) (x self))
  /\ t self = T.

(** [mu] has one vector per window, one entry in (0,1) per read. *)
Definition mu_ok (self : READMeth) (mu : list vector) : Prop :=
  length mu = length (x self)
  /\ forall w, (w < length (x self))%nat ->
       length (nth w mu []) = length (nth w (x self) [])
       /\ Forall (fun v => 0 < v < 1) (nth w mu []).

(** [z] has one T x C matrix of positive entries per window. *)
Definition z_ok (self : READMeth) (T : nat) (z : list matrix) : Prop :=
  length z = length (x self)
  /\ forall w, (w < length (x self))%nat ->
       has_shape T (length (nth w (x self) [])) (nth w z [])
       /\ Forall (Forall (fun v => 0 < v)) (nth w z []).

(** Every pass of [body] over [rng], started in [st], ends without [break]. *)
Fixpoint runs_through (body : nat -> em_state -> bool * em_state) (rng : list nat)
    (st : em_state) : Prop :=
  match rng with
  | [] => True
  | i :: rest => fst (body i st) = false /\ runs_through body rest (snd (body i st))
  end.

(** What every pass through the loop of [em] preserves. *)
Definition em_inv (self : READMeth) (T : nat) (st : em_state) : Prop :=
  proportions T (st_alpha st) /\ mu_ok self (st_mu st).

(** *** A small data set

    Two windows over two cell types.  The first has one read with one
    methylated call; the second has no informative call.  The second lambda
    array holds an exact 1 and an exact 0. *)
Definition ex_heap : heap :=
  fun a => match a with
           | 0%nat => [3/4; 1/4]
           | 1%nat => [1; 0]
           | _ => []
           end.
Definition ex_mixtures : list reads := [ [[METHYLATED]]; [[NOVAL]] ].
Definition ex_lambda_t : list addr := [0%nat; 1%nat].
Definition ex_theta_high : list vector := [ [3/4]; [3/4] ].
Definition ex_theta_low : list vector := [ [1/4]; [1/4] ].
Definition ex_alpha : vector := [1/3; 2/3].
Definition ex_uniform : nat -> vector := fun n => repeat (1/2) n.
Definition ex_engine : READMeth :=
  snd (READMeth_init ex_heap ex_mixtures ex_lambda_t ex_theta_high ex_theta_low
         50 10 (Some ex_alpha)).

(* ================================================================= *)
(** ** [init_mu_no_log] in binary64

    The arithmetic of [init_mu_no_log] on IEEE 754 binary64 numbers, with
    the operations in the order numpy applies them.  [np.exp] is given the
    values the standard fixes ([exp(+-0) = 1]); elsewhere its last bit
    depends on the mathematical library, and the model gives no value. *)
Module F64.
Import PrimFloat.

(** [np.exp] on a binary64 number. *)
Definition np_exp (v : float) : option float :=
  if PrimFloat.eqb v 0%float then Some 1%float else None.

(** An elementwise operation whose operands may be without a value. *)
Definition lift2 (f : float -> float -> float) (u v : option float) : option float :=
  match u, v with
  | Some a, Some b => Some (f a b)
  | _, _ => None
  end.

(** [m.T], [np.ones((n,k))], broadcasting of a vector along the rows. *)
Definition transpose {A : Type} (d : A) (m : list (list A)) : list (list A) :=
  map (fun j => map (fun row => nth j row d) m) (seq 0 (length (hd [] m))).
Definition ones (n k : nat) : list (list float) := repeat (repeat 1%float k) n.
Definition bcast {A B C : Type} (f : A -> B -> C) (v : list A) (m : list (list B))
    : list (list C) :=
  map (fun row => Np.zipWith f v row) m.

(** [np.sum(m, axis=0)]: each column is added up from its first entry. *)
Definition sum_column (col : list (option float)) : option float :=
  match col with
  | [] => Some 0%float
  | a :: rest => fold_left (lift2 PrimFloat.add) rest a
  end.
Definition sum_axis0 (m : list (list (option float))) : list (option float) :=
  map sum_column (transpose None m).

(** [init_mu_no_log], on the fields of [self] it reads; [windows] is
    [len(self.thetaH)]. *)
Definition init_mu_no_log (alpha : list float) (Lt : list (list float))
    (x_c_m : list (list (list bool))) (log_x_given_H log_x_given_L : list (list float))
    (windows : nat) : list (list (option float)) :=
  map (fun window =>
         let t_c := ones (length alpha) (length (nth window x_c_m [])) in
         let high :=
           sum_axis0
             (bcast (lift2 PrimFloat.mul) (map np_exp (nth window log_x_given_H []))
                (map (map Some)
                   (transpose 0%float
                      (bcast PrimFloat.mul
                         (Np.zipWith PrimFloat.mul alpha (nth window Lt []))
                         (transpose 0%float t_c))))) in
         let low :=
           sum_axis0
             (bcast (lift2 PrimFloat.mul) (map np_exp (nth window log_x_given_L []))
                (map (map Some)
                   (transpose 0%float
                      (bcast PrimFloat.mul
                         (Np.zipWith PrimFloat.mul alpha
                            (map (fun l => PrimFloat.sub 1%float l) (nth window Lt [])))
                         (transpose 0%float t_c))))) in
         Np.zipWith (lift2 PrimFloat.div) high (Np.zipWith (lift2 PrimFloat.add) high low))
      (seq 0 windows).


Definition ex_lambda : float := 0x1p-1074%float.
Definition ex_alpha : list float := [0.5%float; 0.5%float].
Definition ex_Lt : list (list float) := [[ex_lambda; ex_lambda]].
Definition ex_x_c_m : list (list (list bool)) := [[[true]; [false]]].
Definition ex_log_x_given_H : list (list float) :=
  [[(-0x1.a431d5bcc193ep-5)%float; (-0)%float]].
Definition ex_log_x_given_L : list (list float) :=
  [[(-0x1.7f7427b73e391p+1)%float; (-0)%float]].

End F64.

(** *** Definitions for the further properties *)

(** The likelihood of read [r] of window [w] under the two-level mixture:
    [sum_t alpha[t] * (lambda[t] * P(x|H) + (1 - lambda[t]) * P(x|L))]. *)
Definition read_likelihood (self : READMeth) (al : vector) (w r : nat) : R :=
  Np.sum
    (tab (length al)
       (fun t0 =>
          nth t0 al 0
          * (nth t0 (nth w (Lt self) []) 0 * exp (nth r (nth w (log_x_given_H self) []) 0)
             + (1 - nth t0 (nth w (Lt self) []) 0)
               * exp (nth r (nth w (log_x_given_L self) []) 0)))).

(** The sum over all reads of all windows of the log of [read_likelihood]. *)
Definition mixture_loglik (self : READMeth) (al : vector) : R :=
  Np.sum
    (tab (length (x self))
       (fun w =>
          Np.sum
            (tab (length (nth w (x self) []))
               (fun r => ln (read_likelihood self al w r))))).

(** The epistate-H share of read [r] of window [w] for responsibilities
    [z_win], computed without logarithms. *)
Definition direct_mu (self : READMeth) (z_win : matrix) (T w r : nat) : R :=
  let high :=
    exp (nth r (nth w (log_x_given_H self) []) 0)
    * Np.sum (tab T (fun t0 => nth t0 (nth w (Lt self) []) 0 * nth r (nth t0 z_win []) 0)) in
  let low :=
    exp (nth r (nth w (log_x_given_L self) []) 0)
    * Np.sum (tab T (fun t0 =>
                       (1 - nth t0 (nth w (Lt self) []) 0) * nth r (nth t0 z_win []) 0)) in
  high / (high + low).

(** The small data set with threshold 0 and three passes. *)
Definition ex_engine_strict : READMeth :=
  snd (READMeth_init ex_heap ex_mixtures ex_lambda_t ex_theta_high ex_theta_low
         3 0 (Some ex_alpha)).

(* ================================================================= *)
(** ** Lists as tables *)

Lemma tab_length {A : Type} (n : nat) (f : nat -> A) : length (tab n f) = n.
Proof. unfold tab. now rewrite length_map, length_seq. Qed.

Lemma nth_tab {A : Type} (n : nat) (f : nat -> A) (d : A) (k : nat) :
  (k < n)%nat -> nth k (tab n f) d = f k.
Proof.
  intros Hk. unfold tab.
  rewrite (nth_indep _ d (f 0%nat)) by now rewrite length_map, length_seq.
  rewrite map_nth, seq_nth by assumption. reflexivity.
Qed.

Lemma tab_ext {A : Type} (n : nat) (f g : nat -> A) :
  (forall k, (k < n)%nat -> f k = g k) -> tab n f = tab n g.
Proof.
  intros H. unfold tab. apply map_ext_in. intros k Hk.
  apply in_seq in Hk. apply H. lia.
Qed.

Lemma tab_S {A : Type} (n : nat) (f : nat -> A) :
  tab (S n) f = f 0%nat :: tab n (fun k => f (S k)).
Proof. unfold tab. simpl. f_equal. rewrite <- seq_shift, map_map. reflexivity. Qed.

Lemma tab_nth {A : Type} (d : A) (l : list A) :
  l = tab (length l) (fun k => nth k l d).
Proof.
  induction l as [|a l IH]; [reflexivity|].
  simpl length. rewrite tab_S. simpl. f_equal. exact IH.
Qed.

Lemma tab_of_length {A : Type} (d : A) (n : nat) (l : list A) :
  length l = n -> l = tab n (fun k => nth k l d).
Proof. intros <-. apply tab_nth. Qed.

Lemma map_tab {A B : Type} (g : A -> B) (n : nat) (f : nat -> A) :
  map g (tab n f) = tab n (fun k => g (f k)).
Proof. unfold tab. now rewrite map_map. Qed.

Lemma zipWith_tab {A B C : Type} (g : A -> B -> C) (n : nat) (f1 : nat -> A) (f2 : nat -> B) :
  Np.zipWith g (tab n f1) (tab n f2) = tab n (fun k => g (f1 k) (f2 k)).
Proof.
  revert f1 f2. induction n as [|n IH]; intros f1 f2; [reflexivity|].
  rewrite !tab_S. simpl. f_equal. apply IH.
Qed.

Lemma repeat_tab {A : Type} (a : A) (n : nat) : repeat a n = tab n (fun _ => a).
Proof.
  induction n as [|n IH]; [reflexivity|].
  rewrite tab_S. simpl. now f_equal.
Qed.

Lemma Forall_tab {A : Type} (P : A -> Prop) (n : nat) (f : nat -> A) :
  (forall k, (k < n)%nat -> P (f k)) -> Forall P (tab n f).
Proof.
  intros H. unfold tab. apply Forall_forall. intros a Ha.
  apply in_map_iff in Ha. destruct Ha as [k [<- Hk]].
  apply in_seq in Hk. apply H. lia.
Qed.

Lemma Forall_nth_lt {A : Type} (P : A -> Prop) (d : A) (l : list A) (k : nat) :
  Forall P l -> (k < length l)%nat -> P (nth k l d).
Proof. intros H Hk. rewrite Forall_forall in H. apply H. now apply nth_In. Qed.

Lemma transpose_tab (n k : nat) (f : nat -> nat -> R) :
  (0 < n)%nat ->
  Np.transpose (tab n (fun i => tab k (f i))) = tab k (fun j => tab n (fun i => f i j)).
Proof.
  intros Hn. unfold Np.transpose, Np.shape1.
  destruct n as [|n]; [lia|].
  rewrite tab_S at 1. simpl hd. rewrite tab_length.
  change (map ?g (seq 0 k)) with (tab k g).
  apply tab_ext. intros j Hj. rewrite map_tab.
  apply tab_ext. intros i Hi. now apply nth_tab.
Qed.

(* ================================================================= *)
(** ** Sums *)

Lemma sum_nil : Np.sum [] = 0.
Proof. reflexivity. Qed.

Lemma sum_cons (a : R) (l : vector) : Np.sum (a :: l) = a + Np.sum l.
Proof. reflexivity. Qed.

Lemma sum_app (l l' : vector) : Np.sum (l ++ l') = Np.sum l + Np.sum l'.
Proof.
  induction l as [|a l IH]; cbn [app].
  - rewrite sum_nil. lra.
  - rewrite !sum_cons, IH. lra.
Qed.

Lemma sum_map_div (s : R) (l : vector) :
  Np.sum (map (fun v => v / s) l) = Np.sum l / s.
Proof.
  induction l as [|a l IH]; cbn [map].
  - rewrite sum_nil. unfold Rdiv. lra.
  - rewrite !sum_cons, IH. unfold Rdiv. lra.
Qed.

Lemma sum_nonneg (l : vector) : Forall (fun v => 0 <= v) l -> 0 <= Np.sum l.
Proof.
  induction 1 as [|a l Ha _ IH]; [rewrite sum_nil; lra|].
  rewrite sum_cons. lra.
Qed.

Lemma sum_pos (l : vector) : Forall (fun v => 0 < v) l -> l <> [] -> 0 < Np.sum l.
Proof.
  intros H Hne. destruct H as [|a l Ha Hl]; [congruence|].
  rewrite sum_cons.
  assert (0 <= Np.sum l).
  { apply sum_nonneg. eapply Forall_impl; [|exact Hl]. simpl. intros; lra. }
  lra.
Qed.

Lemma sum_tab_pos (n : nat) (f : nat -> R) :
  (0 < n)%nat -> (forall k, (k < n)%nat -> 0 < f k) -> 0 < Np.sum (tab n f).
Proof.
  intros Hn H. apply sum_pos.
  - now apply Forall_tab.
  - intros E. apply (f_equal (@length R)) in E. rewrite tab_length in E. simpl in E. lia.
Qed.

Lemma sum_tab_const (n : nat) (a : R) : Np.sum (tab n (fun _ => a)) = INR n * a.
Proof.
  induction n as [|n IH].
  - change (tab 0 _) with (@nil R). rewrite sum_nil. simpl INR. lra.
  - rewrite tab_S, sum_cons, IH, S_INR. lra.
Qed.

Lemma sum_tab_plus (n : nat) (f g : nat -> R) :
  Np.sum (tab n (fun k => f k + g k)) = Np.sum (tab n f) + Np.sum (tab n g).
Proof.
  revert f g. induction n as [|n IH]; intros f g.
  - change (tab 0 _) with (@nil R). rewrite !sum_nil. lra.
  - rewrite !tab_S, !sum_cons, IH. lra.
Qed.

Lemma sum_tab_swap (n k : nat) (f : nat -> nat -> R) :
  Np.sum (tab n (fun i => Np.sum (tab k (fun j => f i j))))
  = Np.sum (tab k (fun j => Np.sum (tab n (fun i => f i j)))).
Proof.
  revert f. induction n as [|n IH]; intros f.
  - change (tab 0 _) with (@nil R) at 1.
    rewrite (tab_ext k _ (fun _ => 0)).
    + rewrite sum_tab_const, sum_nil. lra.
    + intros j _. reflexivity.
  - rewrite tab_S, sum_cons, IH, <- sum_tab_plus.
    f_equal. apply tab_ext. intros j _. now rewrite tab_S, sum_cons.
Qed.

Lemma sum_concat (ls : list vector) : Np.sum (concat ls) = Np.sum (map Np.sum ls).
Proof.
  induction ls as [|l ls IH]; [reflexivity|].
  simpl concat. rewrite sum_app, IH. reflexivity.
Qed.

(* ================================================================= *)
(** ** The per-read likelihoods of [calc_x_given_prob] *)

Lemma calc_x_given_prob_length (x : list reads) (xm xu : list (list (list bool)))
    (prob : list vector) :
  length (calc_x_given_prob x xm xu prob) = length x.
Proof. unfold calc_x_given_prob. now rewrite length_map, length_seq. Qed.

Lemma calc_x_given_prob_nth (x : list reads) (xm xu : list (list (list bool)))
    (prob : list vector) (w : nat) :
  (w < length x)%nat ->
  nth w (calc_x_given_prob x xm xu prob) []
  = Np.zipWith Rplus
      (Np.matvec (map (map Np.astype_int) (nth w xm []))
         (map Np.nan_to_num_log (nth w prob [])))
      (Np.matvec (map (map Np.astype_int) (nth w xu []))
         (map Np.nan_to_num_log (map (fun p => 1 - p) (nth w prob [])))).
Proof.
  intros Hw. unfold calc_x_given_prob.
  change (map ?g (seq 0 (length x))) with (tab (length x) g).
  now rewrite nth_tab.
Qed.

Lemma zipWith_map_same {A B C D : Type} (g : B -> C -> D) (f1 : A -> B) (f2 : A -> C)
    (l : list A) :
  Np.zipWith g (map f1 l) (map f2 l) = map (fun a => g (f1 a) (f2 a)) l.
Proof. induction l as [|a l IH]; simpl; [reflexivity|now f_equal]. Qed.

Lemma zipWith_length {A B C : Type} (g : A -> B -> C) (l : list A) (l' : list B) :
  length l = length l' -> length (Np.zipWith g l l') = length l.
Proof.
  revert l'. induction l as [|a l IH]; intros [|b l'] H; simpl in *; try lia.
  now rewrite IH by lia.
Qed.

Lemma read_loglik_dots (read : list call) (theta : vector) :
  Np.dot (map Np.astype_int (map (fun cell => call_eqb cell METHYLATED) read))
    (map Np.nan_to_num_log theta)
  + Np.dot (map Np.astype_int (map (fun cell => call_eqb cell UNMETHYLATED) read))
      (map Np.nan_to_num_log (map (fun p => 1 - p) theta))
  = Np.sum (Np.zipWith site_loglik read theta).
Proof.
  unfold Np.dot. revert theta.
  induction read as [|v read IH]; intros [|th theta];
    cbn [map Np.zipWith]; rewrite ?sum_nil; try lra.
  rewrite !sum_cons, <- IH.
  destruct v; cbn [call_eqb Np.astype_int site_loglik]; lra.
Qed.

Lemma nan_to_num_log_pos (p : R) : 0 < p -> Np.nan_to_num_log p = ln p.
Proof. intros H. unfold Np.nan_to_num_log. destruct (Rlt_dec 0 p); [reflexivity|lra]. Qed.

Lemma site_loglik_bernoulli (read : list call) (theta : vector) :
  Forall (fun th => 0 < th < 1) theta ->
  Np.sum (Np.zipWith site_loglik read theta) = bernoulli_loglik read theta.
Proof.
  unfold bernoulli_loglik. intros H. revert read.
  induction H as [|th theta Hth _ IH]; intros [|v read];
    cbn [Np.zipWith]; try reflexivity.
  rewrite !sum_cons, IH. f_equal.
  destruct v; cbn [call_eqb Np.astype_int site_loglik];
    rewrite ?nan_to_num_log_pos by lra; lra.
Qed.

Lemma calc_x_given_prob_entry (x : list reads) (prob : list vector) (w r : nat) :
  (w < length x)%nat -> (r < length (nth w x []))%nat ->
  nth r (nth w (calc_x_given_prob x (map (eq_mask METHYLATED) x)
                  (map (eq_mask UNMETHYLATED) x) prob) []) 0
  = Np.sum (Np.zipWith site_loglik (nth r (nth w x []) []) (nth w prob [])).
Proof.
  intros Hw Hr. rewrite calc_x_given_prob_nth by assumption.
  rewrite !(nth_indep (map _ x) [] (eq_mask METHYLATED [])),
          !(nth_indep (map (eq_mask UNMETHYLATED) x) [] (eq_mask UNMETHYLATED []))
    by now rewrite length_map.
  rewrite !map_nth. unfold eq_mask, Np.matvec. rewrite !map_map, zipWith_map_same.
  set (g := fun a : list call => _).
  rewrite (nth_indep _ 0 (g [])) by now rewrite length_map.
  rewrite map_nth. unfold g.
  rewrite <- read_loglik_dots, (map_map (fun p => 1 - p)). reflexivity.
Qed.

Lemma calc_x_given_prob_row_length (x : list reads) (prob : list vector) (w : nat) :
  (w < length x)%nat ->
  length (nth w (calc_x_given_prob x (map (eq_mask METHYLATED) x)
                   (map (eq_mask UNMETHYLATED) x) prob) [])
  = length (nth w x []).
Proof.
  intros Hw. rewrite calc_x_given_prob_nth by assumption.
  rewrite !(nth_indep (map _ x) [] (eq_mask METHYLATED [])),
          !(nth_indep (map (eq_mask UNMETHYLATED) x) [] (eq_mask UNMETHYLATED []))
    by now rewrite length_map.
  rewrite !map_nth. unfold eq_mask, Np.matvec. rewrite !map_map, zipWith_map_same.
  now rewrite length_map.
Qed.

(** C6: for every retained window and every read of it,
    [calc_x_given_prob(prob)] is the sum over the CpG sites of the read of
    the log-likelihood of the call at that site, where a NOVAL call
    contributes 0 whatever the probability is; when the probabilities lie
    strictly between 0 and 1 this sum is the Bernoulli log-likelihood
    [sum (methylated * log(theta) + unmethylated * log(1 - theta))]. *)
Theorem calc_x_given_prob_bernoulli :
  forall (h : heap) (mixtures : list reads) (lambda_t : list addr)
         (theta_high theta_low : list vector) (n : nat) (crit : R) (a : option vector)
         (prob : list vector) (w r : nat),
    let self := snd (READMeth_init h mixtures lambda_t theta_high theta_low n crit a) in
    let res := calc_x_given_prob (x self) (x_c_m self) (x_c_u self) prob in
    let read := nth r (nth w (x self) []) [] in
    (w < length (x self))%nat ->
    (r < length (nth w (x self) []))%nat ->
    length read = length (nth w prob []) ->
    nth r (nth w res []) 0 = Np.sum (Np.zipWith site_loglik read (nth w prob []))
    /\ (forall theta, site_loglik NOVAL theta = 0)
    /\ (Forall (fun th => 0 < th < 1) (nth w prob []) ->
        nth r (nth w res []) 0 = bernoulli_loglik read (nth w prob [])).
Proof.
  intros h mixtures lambda_t theta_high theta_low n crit a prob w r self res read Hw Hr _.
  assert (E : nth r (nth w res []) 0
              = Np.sum (Np.zipWith site_loglik read (nth w prob []))).
  { subst res read. change (x_c_m self) with (map (eq_mask METHYLATED) (x self)).
    change (x_c_u self) with (map (eq_mask UNMETHYLATED) (x self)).
    now apply calc_x_given_prob_entry. }
  split; [exact E|]. split; [reflexivity|].
  intros Hth. rewrite E. now apply site_loglik_bernoulli.
Qed.

(* ================================================================= *)
(** ** Boolean masks *)

Lemma nth_map_lt {A B : Type} (f : A -> B) (l : list A) (d : A) (d' : B) (k : nat) :
  (k < length l)%nat -> nth k (map f l) d' = f (nth k l d).
Proof.
  intros Hk. rewrite (nth_indep _ d' (f d)) by now rewrite length_map.
  apply map_nth.
Qed.

Lemma kept_cons (b : bool) (mask : list bool) :
  kept (b :: mask) = (if b then [0%nat] else []) ++ map S (kept mask).
Proof.
  set (f := fun k => nth k (b :: mask) false).
  assert (E : forall l, filter f (map S l)
                        = map S (filter (fun k => nth k mask false) l)).
  { induction l as [|k l IH]; [reflexivity|].
    cbn [map filter]. rewrite IH.
    change (f (S k)) with (nth k mask false).
    now destruct (nth k mask false). }
  unfold kept. fold f. cbn [length seq]. rewrite <- seq_shift.
  cbn [filter]. rewrite E. change (f 0%nat) with b. now destruct b.
Qed.

Lemma mask_select_kept {A : Type} (d : A) (mask : list bool) (arr : list A) :
  length arr = length mask ->
  Np.mask_select mask arr = map (fun k => nth k arr d) (kept mask).
Proof.
  revert arr. induction mask as [|b mask IH]; intros [|a arr] H;
    simpl in H; try lia; [reflexivity|].
  rewrite kept_cons, map_app, map_map. cbn [Np.mask_select nth].
  rewrite (IH arr) by lia. now destruct b.
Qed.

Lemma In_kept (mask : list bool) (k : nat) :
  In k (kept mask) <-> (k < length mask)%nat /\ nth k mask false = true.
Proof.
  unfold kept. rewrite filter_In, in_seq. intuition lia.
Qed.

Lemma mask_select_filter {A : Type} (f : A -> bool) (l : list A) :
  Np.mask_select (map f l) l = filter f l.
Proof.
  induction l as [|a l IH]; [reflexivity|].
  cbn [map Np.mask_select filter]. rewrite IH. reflexivity.
Qed.

Lemma mask_select_length {A B : Type} (mask : list bool) (arr : list A) (arr' : list B) :
  length arr = length mask -> length arr' = length mask ->
  length (Np.mask_select mask arr) = length (Np.mask_select mask arr').
Proof.
  revert arr arr'. induction mask as [|b mask IH]; intros [|a arr] [|a' arr'] H H';
    simpl in H, H'; try lia; [reflexivity|].
  cbn [Np.mask_select]. destruct b; cbn [length]; rewrite (IH arr arr') by lia; reflexivity.
Qed.

Lemma mask_select_incl {A : Type} (mask : list bool) (arr : list A) :
  incl (Np.mask_select mask arr) arr.
Proof.
  revert arr. induction mask as [|b mask IH]; intros [|a arr]; cbn [Np.mask_select];
    try (intros v []).
  destruct b.
  - intros v [->|Hv]; [now left|right; now apply IH].
  - intros v Hv. right. now apply IH.
Qed.

Lemma has_value_spec (w : reads) :
  has_value w = true <->
  exists read cell, In read w /\ In cell read /\ cell <> NOVAL.
Proof.
  unfold has_value, eq_mask. rewrite existsb_exists. split.
  - intros [bs [Hbs Hex]]. apply in_map_iff in Hbs. destruct Hbs as [read [<- Hread]].
    apply existsb_exists in Hex. destruct Hex as [b [Hb Hneg]].
    apply in_map_iff in Hb. destruct Hb as [cell [<- Hcell]].
    exists read, cell. repeat split; try assumption.
    intros ->. discriminate.
  - intros [read [cell [Hread [Hcell Hne]]]].
    exists (map (fun cell => call_eqb cell NOVAL) read). split.
    + now apply in_map.
    + apply existsb_exists. exists (call_eqb cell NOVAL). split.
      * now apply (in_map (fun cell => call_eqb cell NOVAL)).
      * destruct cell; try reflexivity. congruence.
Qed.

(** C7: after the constructor, every retained window has a read with a call
    that is not NOVAL; the retained windows are exactly the windows of the
    input whose reads are not all NOVAL, in order, and [x], [Lt], [thetaH]
    and [thetaL] hold the entries of the same input positions; the log
    lambdas, the methylation masks, the read and site counts and the
    per-epistate log-likelihoods are computed from the retained windows
    only. *)
Theorem filter_no_coverage_retains_informative :
  forall (h : heap) (mixtures : list reads) (lambda_t : list addr)
         (theta_high theta_low : list vector) (n : nat) (crit : R) (a : option vector),
    let self := snd (READMeth_init h mixtures lambda_t theta_high theta_low n crit a) in
    let keep := kept (map has_value mixtures) in
    length lambda_t = length mixtures ->
    length theta_high = length mixtures ->
    length theta_low = length mixtures ->
    Forall (fun w => exists read cell, In read w /\ In cell read /\ cell <> NOVAL) (x self)
    /\ (forall k, In k keep <->
                  (k < length mixtures)%nat
                  /\ exists read cell,
                       In read (nth k mixtures []) /\ In cell read /\ cell <> NOVAL)
    /\ x self = map (fun k => nth k mixtures []) keep
    /\ Lt_obj self = map (fun k => nth k lambda_t 0%nat) keep
    /\ thetaH self = map (fun k => nth k theta_high []) keep
    /\ thetaL self = map (fun k => nth k theta_low []) keep
    /\ length (Lt self) = length keep
    /\ log_Lt self = map (map ln) (Lt self)
    /\ log_one_minus_Lt self = map (map (fun l => ln (1 - l))) (Lt self)
    /\ x_c_m self = map (eq_mask METHYLATED) (x self)
    /\ x_c_u self = map (eq_mask UNMETHYLATED) (x self)
    /\ c self = list_sum (map (@length (list call)) (x self))
    /\ m self = list_sum (map (fun w => length (hd [] w)) (x self))
    /\ log_x_given_H self
       = calc_x_given_prob (x self) (x_c_m self) (x_c_u self) (thetaH self)
    /\ log_x_given_L self
       = calc_x_given_prob (x self) (x_c_m self) (x_c_u self) (thetaL self)
    /\ length (log_x_given_H self) = length keep
    /\ length (log_x_given_L self) = length keep.
Proof.
  intros h mixtures lambda_t theta_high theta_low n crit a self keep Hl Hh Hlo.
  assert (Hx : x self = map (fun k => nth k mixtures []) keep).
  { change (x self) with (Np.mask_select (map has_value mixtures) mixtures).
    apply mask_select_kept. now rewrite length_map. }
  assert (Hlen : length (x self) = length keep) by now rewrite Hx, length_map.
  split.
  { change (x self) with (Np.mask_select (map has_value mixtures) mixtures).
    rewrite mask_select_filter. apply Forall_forall. intros w Hw.
    apply filter_In in Hw. now apply has_value_spec. }
  split.
  { intros k. unfold keep. rewrite In_kept, length_map.
    split; intros [Hk Hv]; (split; [exact Hk|]).
    - apply has_value_spec. now rewrite (nth_map_lt _ _ []) in Hv.
    - rewrite (nth_map_lt has_value mixtures [] false k Hk). now apply has_value_spec. }
  split; [exact Hx|].
  split.
  { change (Lt_obj self) with (Np.mask_select (map has_value mixtures) lambda_t).
    apply mask_select_kept. now rewrite length_map. }
  split.
  { change (thetaH self) with (Np.mask_select (map has_value mixtures) theta_high).
    apply mask_select_kept. now rewrite length_map. }
  split.
  { change (thetaL self) with (Np.mask_select (map has_value mixtures) theta_low).
    apply mask_select_kept. now rewrite length_map. }
  split.
  { change (length (Lt self))
      with (length (map (add_pseudocounts_loop h lambda_t)
                      (Np.mask_select (map has_value mixtures) lambda_t))).
    rewrite length_map, (mask_select_kept 0%nat), length_map
      by now rewrite length_map.
    reflexivity. }
  repeat (split; [reflexivity|]).
  change (log_x_given_H self)
    with (calc_x_given_prob (x self) (x_c_m self) (x_c_u self) (thetaH self)).
  change (log_x_given_L self)
    with (calc_x_given_prob (x self) (x_c_m self) (x_c_u self) (thetaL self)).
  rewrite !calc_x_given_prob_length. now split.
Qed.

(* ================================================================= *)
(** ** Pseudocounts *)

Lemma pseudocount_range : 0 < pseudocount < 1.
Proof. unfold pseudocount. lra. Qed.

Lemma pseudocount_entry (v : R) :
  let v' := (fun v => if Req_dec_T v 0 then v + pseudocount else v)
              ((fun v => if Req_dec_T v 1 then v - pseudocount else v) v) in
  (v = 1 -> v' = 1 - pseudocount)
  /\ (v = 0 -> v' = 0 + pseudocount)
  /\ (v <> 1 -> v <> 0 -> v' = v).
Proof.
  pose proof pseudocount_range as Hp. cbv beta zeta.
  destruct (Req_dec_T v 1) as [E1|N1].
  - destruct (Req_dec_T (v - pseudocount) 0) as [E0|N0]; [lra|].
    repeat split; intros; lra.
  - destruct (Req_dec_T v 0) as [E0|N0]; repeat split; intros; lra.
Qed.

Lemma pseudocount_arrays_length (arr : vector) :
  length (add_where_zero (sub_where_one arr)) = length arr.
Proof. unfold add_where_zero, sub_where_one. now rewrite !length_map. Qed.

Lemma pseudocount_arrays_nth (arr : vector) (k : nat) :
  (k < length arr)%nat ->
  let v := nth k arr 0 in
  let v' := nth k (add_where_zero (sub_where_one arr)) 0 in
  (v = 1 -> v' = 1 - pseudocount)
  /\ (v = 0 -> v' = 0 + pseudocount)
  /\ (v <> 1 -> v <> 0 -> v' = v).
Proof.
  intros Hk v v'. subst v v'. unfold add_where_zero, sub_where_one.
  rewrite map_map, (nth_map_lt _ _ 0) by exact Hk.
  apply pseudocount_entry.
Qed.

Lemma pseudocount_arrays_idem (arr : vector) :
  add_where_zero (sub_where_one (add_where_zero (sub_where_one arr)))
  = add_where_zero (sub_where_one arr).
Proof.
  pose proof pseudocount_range as Hp.
  unfold add_where_zero, sub_where_one. rewrite !map_map.
  apply map_ext. intros v.
  destruct (Req_dec_T v 1) as [E1|N1].
  - destruct (Req_dec_T (v - pseudocount) 0); [lra|].
    destruct (Req_dec_T (v - pseudocount) 1); [lra|].
    destruct (Req_dec_T (v - pseudocount) 0); [lra|reflexivity].
  - destruct (Req_dec_T v 0) as [E0|N0].
    + destruct (Req_dec_T (v + pseudocount) 1); [lra|].
      destruct (Req_dec_T (v + pseudocount) 0); [lra|reflexivity].
    + destruct (Req_dec_T v 1); [lra|].
      destruct (Req_dec_T v 0); [lra|reflexivity].
Qed.

Lemma pseudocount_arrays_open (arr : vector) :
  Forall (fun v => 0 <= v <= 1) arr ->
  Forall (fun v => 0 < v < 1) (add_where_zero (sub_where_one arr)).
Proof.
  pose proof pseudocount_range as Hp.
  intros H. unfold add_where_zero, sub_where_one. rewrite map_map.
  apply Forall_map. eapply Forall_impl; [|exact H]. cbv beta. intros v Hv.
  destruct (Req_dec_T v 1) as [E1|N1].
  - destruct (Req_dec_T (v - pseudocount) 0); lra.
  - destruct (Req_dec_T v 0); lra.
Qed.

Lemma store_same (h : heap) (a : addr) (v : vector) : store h a v a = v.
Proof. unfold store. now rewrite Nat.eqb_refl. Qed.

Lemma store_other (h : heap) (a b : addr) (v : vector) : b <> a -> store h a v b = h b.
Proof. intros H. unfold store. apply Nat.eqb_neq in H. now rewrite H. Qed.

Lemma add_pseudocounts_loop_spec (l : list addr) :
  forall (h : heap) (r : addr),
    (In r l -> add_pseudocounts_loop h l r = add_where_zero (sub_where_one (h r)))
    /\ (~ In r l -> add_pseudocounts_loop h l r = h r).
Proof.
  induction l as [|a l IH]; intros h r; cbn [add_pseudocounts_loop].
  - split; [intros []|reflexivity].
  - destruct (IH (store h a (add_where_zero (sub_where_one (h a)))) r) as [IHin IHout].
    destruct (Nat.eq_dec r a) as [->|Hne].
    + split; [intros _|intros H; exfalso; apply H; now left].
      destruct (in_dec Nat.eq_dec a l) as [Hin|Hout].
      * rewrite IHin by exact Hin. rewrite store_same. apply pseudocount_arrays_idem.
      * rewrite IHout by exact Hout. apply store_same.
    + split.
      * intros [E|Hin]; [congruence|].
        rewrite IHin by exact Hin. now rewrite store_other.
      * intros Hout. rewrite IHout by (intros Hin; apply Hout; now right).
        now rewrite store_other.
Qed.

(** C8: [add_pseudocounts] returns the object it was given and writes into
    the arrays that object refers to: an entry that is exactly 1 becomes
    [1 - 1e-10], an entry that is exactly 0 becomes [0 + 1e-10], every other
    entry and every other array of the store is unchanged.  The arrays of
    the engine's [Lt] are arrays of the caller's [lambda_t], read through
    the store the constructor leaves; when the caller's entries are
    probabilities, every entry of the caller's arrays and of [Lt] lies
    strictly between 0 and 1 afterwards. *)
Theorem add_pseudocounts_in_place :
  forall (h : heap) (mixtures : list reads) (lambda_t : list addr)
         (theta_high theta_low : list vector) (n : nat) (crit : R) (a : option vector),
    let h' := fst (add_pseudocounts h lambda_t) in
    let init := READMeth_init h mixtures lambda_t theta_high theta_low n crit a in
    Forall (fun r => Forall (fun v => 0 <= v <= 1) (h r)) lambda_t ->
    snd (add_pseudocounts h lambda_t) = lambda_t
    /\ (forall r, In r lambda_t ->
          length (h' r) = length (h r)
          /\ forall k, (k < length (h r))%nat ->
               (nth k (h r) 0 = 1 -> nth k (h' r) 0 = 1 - pseudocount)
               /\ (nth k (h r) 0 = 0 -> nth k (h' r) 0 = 0 + pseudocount)
               /\ (nth k (h r) 0 <> 1 -> nth k (h r) 0 <> 0 ->
                   nth k (h' r) 0 = nth k (h r) 0))
    /\ (forall r, ~ In r lambda_t -> h' r = h r)
    /\ fst init = h'
    /\ Lt_obj (snd init) = Np.mask_select (x_c_v (snd init)) lambda_t
    /\ incl (Lt_obj (snd init)) lambda_t
    /\ Lt (snd init) = map (fst init) (Lt_obj (snd init))
    /\ Forall (fun r => Forall (fun v => 0 < v < 1) (h' r)) lambda_t
    /\ Forall (Forall (fun v => 0 < v < 1)) (Lt (snd init)).
Proof.
  intros h mixtures lambda_t theta_high theta_low n crit a h' init Hprob.
  assert (Hin : forall r, In r lambda_t -> h' r = add_where_zero (sub_where_one (h r))).
  { intros r Hr. now apply (add_pseudocounts_loop_spec lambda_t h r). }
  assert (Hopen : Forall (fun r => Forall (fun v => 0 < v < 1) (h' r)) lambda_t).
  { apply Forall_forall. intros r Hr. rewrite (Hin r Hr).
    apply pseudocount_arrays_open. rewrite Forall_forall in Hprob. now apply Hprob. }
  assert (Hincl : incl (Lt_obj (snd init)) lambda_t) by apply mask_select_incl.
  split; [reflexivity|].
  split.
  { intros r Hr. rewrite (Hin r Hr). split; [apply pseudocount_arrays_length|].
    intros k Hk. now apply pseudocount_arrays_nth. }
  split.
  { intros r Hr. now apply (add_pseudocounts_loop_spec lambda_t h r). }
  repeat (split; [first [reflexivity | assumption]|]).
  change (Lt (snd init)) with (map h' (Lt_obj (snd init))).
  apply Forall_map. apply Forall_forall. intros r Hr.
  rewrite Forall_forall in Hopen. apply Hopen. now apply Hincl.
Qed.

(* ================================================================= *)
(** ** The array operations, entry by entry *)

Lemma is_vec_nth (v : vector) (n : nat) :
  length v = n -> is_vec v n (fun k => nth k v 0).
Proof. intros H. now apply tab_of_length. Qed.

Lemma is_vec_ext (v : vector) (n : nat) (f f' : nat -> R) :
  is_vec v n f -> (forall k, (k < n)%nat -> f k = f' k) -> is_vec v n f'.
Proof. unfold is_vec. intros -> H. now apply tab_ext. Qed.

Lemma is_mat_ext (a : matrix) (n k : nat) (g g' : nat -> nat -> R) :
  is_mat a n k g ->
  (forall i j, (i < n)%nat -> (j < k)%nat -> g i j = g' i j) ->
  is_mat a n k g'.
Proof.
  unfold is_mat. intros -> H. apply tab_ext. intros i Hi.
  apply tab_ext. intros j Hj. now apply H.
Qed.

Lemma is_mat_shape (a : matrix) (n k : nat) :
  has_shape n k a -> is_mat a n k (fun i j => nth j (nth i a []) 0).
Proof.
  intros [Hn Hk]. unfold is_mat.
  rewrite (tab_of_length [] n a Hn) at 1.
  apply tab_ext. intros i Hi. apply tab_of_length.
  apply (Forall_nth_lt _ [] a i Hk). lia.
Qed.

Lemma is_mat_has_shape (a : matrix) (n k : nat) (g : nat -> nat -> R) :
  is_mat a n k g -> has_shape n k a.
Proof.
  unfold is_mat. intros ->. split; [apply tab_length|].
  apply Forall_tab. intros i _. apply tab_length.
Qed.

Lemma is_mat_entry (a : matrix) (n k : nat) (g : nat -> nat -> R) (i j : nat) :
  is_mat a n k g -> (i < n)%nat -> (j < k)%nat -> nth j (nth i a []) 0 = g i j.
Proof. unfold is_mat. intros -> Hi Hj. now rewrite !nth_tab. Qed.

Lemma is_vec_entry (v : vector) (n : nat) (f : nat -> R) (j : nat) :
  is_vec v n f -> (j < n)%nat -> nth j v 0 = f j.
Proof. unfold is_vec. intros -> Hj. now rewrite nth_tab. Qed.

Lemma is_vec_length (v : vector) (n : nat) (f : nat -> R) :
  is_vec v n f -> length v = n.
Proof. unfold is_vec. intros ->. apply tab_length. Qed.

Lemma is_mat_tile (v : vector) (n k : nat) (f : nat -> R) :
  is_vec v k f -> is_mat (Np.tile v n) n k (fun _ j => f j).
Proof. unfold is_vec, is_mat, Np.tile. intros ->. apply repeat_tab. Qed.

Lemma is_mat_ones (n k : nat) : is_mat (Np.ones n k) n k (fun _ _ => 1).
Proof. unfold is_mat, Np.ones. now rewrite !repeat_tab. Qed.

Lemma is_mat_transpose (a : matrix) (n k : nat) (g : nat -> nat -> R) :
  is_mat a n k g -> (0 < n)%nat -> is_mat (Np.transpose a) k n (fun j i => g i j).
Proof. unfold is_mat. intros -> Hn. now apply transpose_tab. Qed.

Lemma is_vec_zipWith (f : R -> R -> R) (u v : vector) (n : nat) (fu fv : nat -> R) :
  is_vec u n fu -> is_vec v n fv ->
  is_vec (Np.zipWith f u v) n (fun k => f (fu k) (fv k)).
Proof. unfold is_vec. intros -> ->. apply zipWith_tab. Qed.

Lemma is_vec_map (f : R -> R) (v : vector) (n : nat) (fv : nat -> R) :
  is_vec v n fv -> is_vec (map f v) n (fun k => f (fv k)).
Proof. unfold is_vec. intros ->. apply map_tab. Qed.

Lemma is_mat_mzip (f : R -> R -> R) (a b : matrix) (n k : nat) (ga gb : nat -> nat -> R) :
  is_mat a n k ga -> is_mat b n k gb ->
  is_mat (Np.mzip f a b) n k (fun i j => f (ga i j) (gb i j)).
Proof.
  unfold is_mat, Np.mzip. intros -> ->. rewrite zipWith_tab.
  apply tab_ext. intros i _. apply zipWith_tab.
Qed.

Lemma is_mat_mmap (f : R -> R) (a : matrix) (n k : nat) (g : nat -> nat -> R) :
  is_mat a n k g -> is_mat (Np.mmap f a) n k (fun i j => f (g i j)).
Proof.
  unfold is_mat, Np.mmap. intros ->. rewrite map_tab.
  apply tab_ext. intros i _. apply map_tab.
Qed.

Lemma is_mat_bcast (f : R -> R -> R) (v : vector) (a : matrix) (n k : nat)
    (fv : nat -> R) (g : nat -> nat -> R) :
  is_vec v k fv -> is_mat a n k g ->
  is_mat (Np.bcast f v a) n k (fun i j => f (fv j) (g i j)).
Proof.
  unfold is_vec, is_mat, Np.bcast. intros -> ->. rewrite map_tab.
  apply tab_ext. intros i _. apply zipWith_tab.
Qed.

Lemma is_mat_bcast_r (f : R -> R -> R) (a : matrix) (v : vector) (n k : nat)
    (g : nat -> nat -> R) (fv : nat -> R) :
  is_mat a n k g -> is_vec v k fv ->
  is_mat (Np.bcast_r f a v) n k (fun i j => f (g i j) (fv j)).
Proof.
  unfold is_vec, is_mat, Np.bcast_r. intros -> ->. rewrite map_tab.
  apply tab_ext. intros i _. apply zipWith_tab.
Qed.

Lemma is_vec_sum_axis0 (a : matrix) (n k : nat) (g : nat -> nat -> R) :
  is_mat a n k g -> (0 < n)%nat ->
  is_vec (Np.sum_axis0 a) k (fun j => Np.sum (tab n (fun i => g i j))).
Proof.
  unfold is_vec, is_mat, Np.sum_axis0. intros -> Hn.
  rewrite transpose_tab by exact Hn. apply map_tab.
Qed.

Lemma is_vec_logsumexp_axis0 (a : matrix) (n k : nat) (g : nat -> nat -> R) :
  is_mat a n k g -> (0 < n)%nat ->
  is_vec (Np.logsumexp_axis0 a) k (fun j => ln (Np.sum (tab n (fun i => exp (g i j))))).
Proof.
  intros Ha Hn. unfold Np.logsumexp_axis0.
  apply is_vec_map.
  apply (is_vec_sum_axis0 _ n k (fun i j => exp (g i j))); [|exact Hn].
  now apply is_mat_mmap.
Qed.

Lemma is_mat_two_rows (u v : vector) (k : nat) (fu fv : nat -> R) :
  is_vec u k fu -> is_vec v k fv ->
  is_mat [u; v] 2 k (fun i j => match i with 0%nat => fu j | _ => fv j end).
Proof. unfold is_vec, is_mat. intros -> ->. reflexivity. Qed.

(* ================================================================= *)
(** ** The E-step and the M-step, window by window *)

Ltac array_step :=
  first
    [ eapply is_mat_bcast_r | eapply is_mat_bcast | eapply is_mat_mzip
    | eapply is_mat_mmap | eapply is_mat_transpose | eapply is_mat_ones
    | eapply is_mat_tile | eapply is_mat_two_rows
    | eapply is_vec_sum_axis0 | eapply is_vec_logsumexp_axis0
    | eapply is_vec_zipWith | eapply is_vec_map
    | eapply is_vec_nth; eassumption
    | eapply is_mat_shape; eassumption
    | assumption | lia ].

Ltac arrays := repeat array_step.

Lemma calc_z_window (self : READMeth) (mu : list vector) (alpha : vector)
    (w T C : nat) :
  (w < length (x self))%nat -> (0 < T)%nat -> (0 < C)%nat ->
  length alpha = T ->
  Np.shape0 (nth w (x_c_m self) []) = C ->
  length (nth w mu []) = C ->
  length (nth w (Lt self) []) = T ->
  is_mat (nth w (calc_z self mu alpha) []) T C
    (fun t0 r =>
       z_raw (nth w mu []) (nth w (Lt self) []) alpha t0 r
       / Np.sum (tab T (fun t' => z_raw (nth w mu []) (nth w (Lt self) []) alpha t' r))).
Proof.
  intros Hw HT HC Ha Hx Hmu HL. unfold calc_z.
  change (map ?g (seq 0 (length (x self)))) with (tab (length (x self)) g).
  rewrite nth_tab by exact Hw. cbv zeta. rewrite Ha, Hx.
  eapply is_mat_ext; [arrays|].
  intros i j Hi Hj. reflexivity.
Qed.

Lemma calc_mu_window (self : READMeth) (alpha : vector) (z : list matrix)
    (w T C : nat) :
  (w < length (x self))%nat -> (0 < T)%nat -> (0 < C)%nat ->
  length alpha = T ->
  Np.shape0 (nth w (x_c_m self) []) = C ->
  length (nth w (log_Lt self) []) = T ->
  length (nth w (log_one_minus_Lt self) []) = T ->
  length (nth w (log_x_given_H self) []) = C ->
  length (nth w (log_x_given_L self) []) = C ->
  has_shape T C (nth w z []) ->
  is_vec (nth w (calc_mu self alpha z) []) C
    (fun r =>
       let lh := log_mix (nth w (log_Lt self) []) (nth w (log_x_given_H self) [])
                   (nth w z []) T r in
       let ll := log_mix (nth w (log_one_minus_Lt self) [])
                   (nth w (log_x_given_L self) []) (nth w z []) T r in
       exp (lh - ln (exp lh + (exp ll + 0)))).
Proof.
  intros Hw HT HC Ha Hx HL HL1 HlH HlL Hz. unfold calc_mu.
  change (map ?g (seq 0 (length (x self)))) with (tab (length (x self)) g).
  rewrite nth_tab by exact Hw. cbv zeta. rewrite Ha, Hx.
  eapply is_vec_ext; [arrays|].
  intros r Hr. reflexivity.
Qed.

Lemma init_mu_no_log_window (self : READMeth) (alpha : vector) (w T C : nat) :
  (w < length (thetaH self))%nat -> (0 < T)%nat -> (0 < C)%nat ->
  length alpha = T ->
  Np.shape0 (nth w (x_c_m self) []) = C ->
  length (nth w (Lt self) []) = T ->
  length (nth w (log_x_given_H self) []) = C ->
  length (nth w (log_x_given_L self) []) = C ->
  is_vec (nth w (init_mu_no_log self alpha) []) C
    (fun r =>
       let high := init_mix (nth w (log_x_given_H self) []) alpha
                     (fun t0 => nth t0 (nth w (Lt self) []) 0) T r in
       let low := init_mix (nth w (log_x_given_L self) []) alpha
                    (fun t0 => 1 - nth t0 (nth w (Lt self) []) 0) T r in
       high / (high + low)).
Proof.
  intros Hw HT HC Ha Hx HL HlH HlL. unfold init_mu_no_log.
  change (map ?g (seq 0 (length (thetaH self)))) with (tab (length (thetaH self)) g).
  rewrite nth_tab by exact Hw. cbv zeta. rewrite Ha, Hx.
  eapply is_vec_ext; [arrays|].
  intros r Hr. reflexivity.
Qed.

Lemma hstack_rows (z : list matrix) (T : nat) :
  z <> [] -> Forall (fun z_win => length z_win = T) z ->
  Np.hstack z = tab T (fun t0 => concat (map (fun z_win => nth t0 z_win []) z)).
Proof.
  intros Hne H. revert Hne.
  induction H as [|z_win rest Hlen Hrest IH]; intros Hne; [now elim Hne|].
  destruct rest as [|z_win' rest'].
  - cbn [Np.hstack map concat].
    rewrite (tab_of_length [] T z_win Hlen) at 1.
    apply tab_ext. intros t0 _. now rewrite app_nil_r.
  - change (Np.hstack (z_win :: z_win' :: rest'))
      with (Np.zipWith (@app R) z_win (Np.hstack (z_win' :: rest'))).
    rewrite IH by congruence.
    rewrite (tab_of_length [] T z_win Hlen) at 1.
    rewrite zipWith_tab. apply tab_ext. intros t0 _. reflexivity.
Qed.

Lemma maximization_entries (self : READMeth) (z : list matrix) (T : nat) :
  z <> [] -> Forall (fun z_win => length z_win = T) z ->
  maximization self z
  = map (fun a => a / Np.sum (tab T (fun t0 => total_mass z t0 / INR (c self))))
      (tab T (fun t0 => total_mass z t0 / INR (c self))).
Proof.
  intros Hne H. unfold maximization. cbv zeta.
  assert (E : map (fun s => s / INR (c self)) (Np.sum_axis1 (Np.hstack z))
              = tab T (fun t0 => total_mass z t0 / INR (c self))).
  { rewrite (hstack_rows z T Hne H). unfold Np.sum_axis1. rewrite !map_tab.
    apply tab_ext. intros t0 _. unfold total_mass.
    now rewrite sum_concat, map_map. }
  now rewrite E.
Qed.

Lemma normalised_sum (v : vector) : Np.sum v <> 0 -> Np.sum (map (fun a => a / Np.sum v) v) = 1.
Proof. intros H. rewrite sum_map_div. now field. Qed.

(** C5: [maximization] concatenates the windows' [z] matrices along the
    read axis, sums each cell type's row over all reads, divides by the
    number [c] of reads of the retained windows and divides the result by
    its sum, so that it sums to 1. *)
Theorem maximization_normalised_mass :
  forall (h : heap) (mixtures : list reads) (lambda_t : list addr)
         (theta_high theta_low : list vector) (n : nat) (crit : R) (a : option vector)
         (z : list matrix) (T : nat),
    let self := snd (READMeth_init h mixtures lambda_t theta_high theta_low n crit a) in
    let new_alpha := tab T (fun t0 => total_mass z t0 / INR (c self)) in
    z <> [] ->
    Forall (fun z_win => length z_win = T) z ->
    c self = list_sum (map (@length (list call)) (x self))
    /\ Np.hstack z = tab T (fun t0 => concat (map (fun z_win => nth t0 z_win []) z))
    /\ (forall t0, (t0 < T)%nat ->
          Np.sum (nth t0 (Np.hstack z) []) = total_mass z t0)
    /\ maximization self z = map (fun v => v / Np.sum new_alpha) new_alpha
    /\ (Np.sum new_alpha <> 0 -> Np.sum (maximization self z) = 1).
Proof.
  intros h mixtures lambda_t theta_high theta_low n crit a z T self new_alpha Hne H.
  pose proof (hstack_rows z T Hne H) as Hh.
  pose proof (maximization_entries self z T Hne H) as Hm.
  split; [reflexivity|]. split; [exact Hh|]. split.
  { intros t0 Ht. rewrite Hh, nth_tab by exact Ht.
    unfold total_mass. now rewrite sum_concat, map_map. }
  split; [exact Hm|].
  intros Hs. rewrite Hm. now apply normalised_sum.
Qed.

(* ================================================================= *)
(** ** What one EM iteration preserves *)

Lemma ready_window (self : READMeth) (T w : nat) :
  em_ready self T -> (w < length (x self))%nat ->
  (0 < length (nth w (x self) []))%nat
  /\ Np.shape0 (nth w (x_c_m self) []) = length (nth w (x self) [])
  /\ length (nth w (Lt self) []) = T
  /\ Forall (fun v => 0 < v < 1) (nth w (Lt self) [])
  /\ length (nth w (log_Lt self) []) = T
  /\ length (nth w (log_one_minus_Lt self) []) = T
  /\ length (nth w (log_x_given_H self) []) = length (nth w (x self) [])
  /\ length (nth w (log_x_given_L self) []) = length (nth w (x self) []).
Proof.
  intros (HT & Hne & Hreads & Hxm & HlenL & HL & HlogL & Hlog1 & HlenH & HlH & HlL
          & Hrows & Hc & Ht) Hw.
  assert (HwL : (w < length (Lt self))%nat) by lia.
  destruct (Forall_nth_lt _ [] (Lt self) w HL HwL) as [HLw HLr].
  destruct (Hrows w Hw) as [HrH HrL].
  repeat split; try assumption.
  - pose proof (Forall_nth_lt _ [] (x self) w Hreads Hw) as Hn. cbv beta in Hn.
    apply Nat.neq_0_lt_0. intros E. apply Hn. now apply length_zero_iff_nil.
  - rewrite Hxm, (nth_map_lt (eq_mask METHYLATED) (x self) [] [] w Hw).
    unfold Np.shape0, eq_mask. apply length_map.
  - rewrite HlogL, (nth_map_lt (map ln) (Lt self) [] [] w HwL). now rewrite length_map.
  - rewrite Hlog1, (nth_map_lt (map (fun l => ln (1 - l))) (Lt self) [] [] w HwL).
    now rewrite length_map.
Qed.

Lemma z_raw_pos (mu_win Lt_win alpha : vector) (t0 r : nat) :
  0 <= nth r mu_win 0 <= 1 -> 0 < nth t0 Lt_win 0 < 1 -> 0 < nth t0 alpha 0 ->
  0 < z_raw mu_win Lt_win alpha t0 r.
Proof.
  unfold z_raw. intros Hm HL Ha.
  set (u := nth r mu_win 0) in *. set (l := nth t0 Lt_win 0) in *.
  set (a := nth t0 alpha 0) in *.
  assert (H : 0 < u * l + (1 - u) * (1 - l)).
  { destruct (Rle_dec u (1/2)).
    - assert (0 <= u * l) by (apply Rmult_le_pos; lra).
      assert (0 < (1 - u) * (1 - l)) by (apply Rmult_lt_0_compat; lra). lra.
    - assert (0 < u * l) by (apply Rmult_lt_0_compat; lra).
      assert (0 <= (1 - u) * (1 - l)) by (apply Rmult_le_pos; lra). lra. }
  replace (u * l * a + (1 - u) * (1 - l) * a) with ((u * l + (1 - u) * (1 - l)) * a) by ring.
  now apply Rmult_lt_0_compat.
Qed.

Lemma calc_z_length (self : READMeth) (mu : list vector) (alpha : vector) :
  length (calc_z self mu alpha) = length (x self).
Proof. unfold calc_z. now rewrite length_map, length_seq. Qed.

Lemma calc_z_ok (self : READMeth) (T : nat) (mu : list vector) (alpha : vector) :
  em_ready self T ->
  length alpha = T -> Forall (fun v => 0 < v) alpha ->
  (forall w, (w < length (x self))%nat ->
     length (nth w mu []) = length (nth w (x self) [])
     /\ Forall (fun v => 0 <= v <= 1) (nth w mu [])) ->
  z_ok self T (calc_z self mu alpha)
  /\ forall w r, (w < length (x self))%nat -> (r < length (nth w (x self) []))%nat ->
       Np.sum (map (fun row => nth r row 0) (nth w (calc_z self mu alpha) [])) = 1.
Proof.
  intros Hready Ha Hpos Hmu.
  assert (HT : (0 < T)%nat) by apply Hready.
  assert (Hwin : forall w, (w < length (x self))%nat ->
            forall t0 r, (t0 < T)%nat -> (r < length (nth w (x self) []))%nat ->
              0 < z_raw (nth w mu []) (nth w (Lt self) []) alpha t0 r).
  { intros w Hw t0 r Ht Hr.
    destruct (ready_window self T w Hready Hw) as (_ & _ & HL & HLr & _).
    destruct (Hmu w Hw) as [Hml Hmr].
    apply z_raw_pos.
    - apply (Forall_nth_lt _ 0 _ r Hmr). lia.
    - apply (Forall_nth_lt _ 0 _ t0 HLr). lia.
    - apply (Forall_nth_lt _ 0 _ t0 Hpos). lia. }
  assert (Hmat : forall w, (w < length (x self))%nat ->
            is_mat (nth w (calc_z self mu alpha) []) T (length (nth w (x self) []))
              (fun t0 r =>
                 z_raw (nth w mu []) (nth w (Lt self) []) alpha t0 r
                 / Np.sum (tab T (fun t' =>
                                    z_raw (nth w mu []) (nth w (Lt self) []) alpha t' r)))).
  { intros w Hw.
    destruct (ready_window self T w Hready Hw) as (HC & Hxm & HL & _).
    destruct (Hmu w Hw) as [Hml _].
    now apply calc_z_window. }
  split.
  - split; [apply calc_z_length|]. intros w Hw. specialize (Hmat w Hw).
    split; [eapply is_mat_has_shape; exact Hmat|].
    red in Hmat. rewrite Hmat.
    apply Forall_tab. intros t0 Ht. apply Forall_tab. intros r Hr.
    apply Rdiv_lt_0_compat; [now apply Hwin|].
    apply sum_tab_pos; [exact HT|]. intros t' Ht'. now apply Hwin.
  - intros w r Hw Hr. specialize (Hmat w Hw). red in Hmat. rewrite Hmat, map_tab.
    rewrite (tab_ext T _
               (fun t0 => z_raw (nth w mu []) (nth w (Lt self) []) alpha t0 r
                          / Np.sum (tab T (fun t' =>
                              z_raw (nth w mu []) (nth w (Lt self) []) alpha t' r))))
      by (intros t0 Ht; now rewrite nth_tab).
    rewrite <- (map_tab (fun v => v / _)).
    apply normalised_sum.
    apply Rgt_not_eq, Rlt_gt, sum_tab_pos; [exact HT|].
    intros t' Ht'. now apply Hwin.
Qed.

Lemma softmax2_open (a b : R) : 0 < exp (a - ln (exp a + (exp b + 0))) < 1.
Proof.
  pose proof (exp_pos a) as Ha. pose proof (exp_pos b) as Hb.
  split; [apply exp_pos|].
  rewrite <- exp_0. apply exp_increasing.
  assert (a < ln (exp a + (exp b + 0))).
  { rewrite <- (ln_exp a) at 1. apply ln_increasing; lra. }
  lra.
Qed.

Lemma ratio_open (p q : R) : 0 < p -> 0 < q -> 0 < p / (p + q) < 1.
Proof.
  intros Hp Hq. split.
  - apply Rdiv_lt_0_compat; lra.
  - apply (Rmult_lt_reg_r (p + q)); [lra|].
    unfold Rdiv. rewrite Rmult_assoc, Rinv_l by lra. lra.
Qed.

Lemma calc_mu_length (self : READMeth) (alpha : vector) (z : list matrix) :
  length (calc_mu self alpha z) = length (x self).
Proof. unfold calc_mu. now rewrite length_map, length_seq. Qed.

Lemma calc_mu_ok (self : READMeth) (T : nat) (alpha : vector) (z : list matrix) :
  em_ready self T -> length alpha = T -> z_ok self T z ->
  mu_ok self (calc_mu self alpha z).
Proof.
  intros Hready Ha [Hzl Hz].
  assert (HT : (0 < T)%nat) by apply Hready.
  split; [apply calc_mu_length|]. intros w Hw.
  destruct (ready_window self T w Hready Hw)
    as (HC & Hxm & HL & _ & HlogL & Hlog1 & HlH & HlL).
  destruct (Hz w Hw) as [Hshape _].
  pose proof (calc_mu_window self alpha z w T _ Hw HT HC Ha Hxm HlogL Hlog1 HlH HlL Hshape)
    as Hvec.
  split; [eapply is_vec_length; exact Hvec|].
  red in Hvec. rewrite Hvec. apply Forall_tab. intros r _. apply softmax2_open.
Qed.

Lemma init_mix_pos (logp alpha : vector) (wts : nat -> R) (T r : nat) :
  (0 < T)%nat -> length alpha = T -> Forall (fun v => 0 < v) alpha ->
  (forall t0, (t0 < T)%nat -> 0 < wts t0) ->
  0 < init_mix logp alpha wts T r.
Proof.
  intros HT Ha Hpos Hw. unfold init_mix. apply sum_tab_pos; [exact HT|].
  intros t0 Ht.
  assert (0 < nth t0 alpha 0) by (apply (Forall_nth_lt _ 0 _ t0 Hpos); lia).
  pose proof (Hw t0 Ht). pose proof (exp_pos (nth r logp 0)).
  apply Rmult_lt_0_compat; [assumption|].
  rewrite Rmult_1_r. now apply Rmult_lt_0_compat.
Qed.

Lemma init_mu_no_log_length (self : READMeth) (alpha : vector) :
  length (init_mu_no_log self alpha) = length (thetaH self).
Proof. unfold init_mu_no_log. now rewrite length_map, length_seq. Qed.

Lemma init_mu_no_log_ok (self : READMeth) (T : nat) (alpha : vector) :
  em_ready self T -> length alpha = T -> Forall (fun v => 0 < v) alpha ->
  mu_ok self (init_mu_no_log self alpha).
Proof.
  intros Hready Ha Hpos.
  assert (HT : (0 < T)%nat) by apply Hready.
  assert (HlenH : length (thetaH self) = length (x self)) by apply Hready.
  split; [now rewrite init_mu_no_log_length|]. intros w Hw.
  destruct (ready_window self T w Hready Hw)
    as (HC & Hxm & HL & HLr & _ & _ & HlH & HlL).
  assert (Hw' : (w < length (thetaH self))%nat) by lia.
  pose proof (init_mu_no_log_window self alpha w T _ Hw' HT HC Ha Hxm HL HlH HlL) as Hvec.
  split; [eapply is_vec_length; exact Hvec|].
  red in Hvec. rewrite Hvec. apply Forall_tab. intros r _. cbv zeta.
  apply ratio_open; apply init_mix_pos; try assumption; intros t0 Ht;
    assert (Hl : 0 < nth t0 (nth w (Lt self) []) 0 < 1)
      by (apply (Forall_nth_lt _ 0 _ t0 HLr); lia); lra.
Qed.

Lemma list_sum_pos (l : list nat) :
  l <> [] -> Forall (fun k => (0 < k)%nat) l -> (0 < list_sum l)%nat.
Proof.
  intros Hne H. destruct H as [|k l Hk _]; [now elim Hne|]. simpl. lia.
Qed.

Lemma ready_c_pos (self : READMeth) (T : nat) : em_ready self T -> 0 < INR (c self).
Proof.
  intros (_ & Hne & Hreads & _ & _ & _ & _ & _ & _ & _ & _ & _ & Hc & _).
  apply lt_0_INR. rewrite Hc. apply list_sum_pos.
  - intros E. apply Hne. now apply map_eq_nil in E.
  - apply Forall_map. eapply Forall_impl; [|exact Hreads].
    cbv beta. intros w Hw. apply Nat.neq_0_lt_0. intros E. apply Hw.
    now apply length_zero_iff_nil.
Qed.

Lemma total_mass_pos (self : READMeth) (T : nat) (z : list matrix) (t0 : nat) :
  em_ready self T -> z_ok self T z -> (t0 < T)%nat -> 0 < total_mass z t0.
Proof.
  intros Hready [Hzl Hz] Ht. unfold total_mass. apply sum_pos.
  - apply Forall_map. apply Forall_forall. intros z_win Hin.
    destruct (In_nth z z_win [] Hin) as [w [Hw <-]].
    rewrite Hzl in Hw.
    destruct (ready_window self T w Hready Hw) as (HC & _).
    destruct (Hz w Hw) as [[Hrows Hcols] Hp].
    apply sum_pos.
    + apply (Forall_nth_lt _ [] _ t0 Hp). lia.
    + intros E. apply (f_equal (@length R)) in E.
      rewrite (Forall_nth_lt _ [] _ t0 Hcols) in E by lia. simpl in E. lia.
  - intros E. apply map_eq_nil in E.
    assert (Hne : x self <> []) by apply Hready.
    apply Hne. apply length_zero_iff_nil. rewrite <- Hzl, E. reflexivity.
Qed.

Lemma z_ok_rows (self : READMeth) (T : nat) (z : list matrix) :
  em_ready self T -> z_ok self T z ->
  z <> [] /\ Forall (fun z_win => length z_win = T) z.
Proof.
  intros Hready [Hzl Hz]. split.
  - intros E. assert (Hne : x self <> []) by apply Hready.
    apply Hne. apply length_zero_iff_nil. rewrite <- Hzl, E. reflexivity.
  - apply Forall_forall. intros z_win Hin.
    destruct (In_nth z z_win [] Hin) as [w [Hw <-]].
    rewrite Hzl in Hw. now destruct (Hz w Hw) as [[Hrows _] _].
Qed.

Lemma maximization_ok (self : READMeth) (T : nat) (z : list matrix) :
  em_ready self T -> z_ok self T z -> proportions T (maximization self z).
Proof.
  intros Hready Hz.
  assert (HT : (0 < T)%nat) by apply Hready.
  destruct (z_ok_rows self T z Hready Hz) as [Hne Hrows].
  pose proof (ready_c_pos self T Hready) as Hc.
  assert (Hp : forall t0, (t0 < T)%nat -> 0 < total_mass z t0 / INR (c self)).
  { intros t0 Ht. apply Rdiv_lt_0_compat; [|exact Hc].
    now apply (total_mass_pos self T). }
  assert (Hs : 0 < Np.sum (tab T (fun t0 => total_mass z t0 / INR (c self))))
    by now apply sum_tab_pos.
  rewrite (maximization_entries self z T Hne Hrows).
  split; [now rewrite length_map, tab_length|]. split.
  - rewrite map_tab. apply Forall_tab. intros t0 Ht.
    apply Rdiv_lt_0_compat; [now apply Hp|exact Hs].
  - apply normalised_sum. lra.
Qed.

Lemma init_alpha_ok (uniform : nat -> vector) (self : READMeth) (T : nat) :
  em_ready self T -> valid_alpha uniform (alpha self) T ->
  proportions T (init_alpha uniform self).
Proof.
  intros Hready Hv. unfold init_alpha, valid_alpha in *.
  assert (HT : (0 < T)%nat) by apply Hready.
  assert (Ht : t self = T) by apply Hready.
  destruct (alpha self) as [a|]; [exact Hv|].
  rewrite Ht. destruct Hv as [Hlen Hpos].
  assert (Hs : 0 < Np.sum (uniform T)).
  { apply sum_pos; [exact Hpos|]. intros E. rewrite E in Hlen. simpl in Hlen. lia. }
  split; [now rewrite length_map|]. split.
  - apply Forall_map. eapply Forall_impl; [|exact Hpos].
    cbv beta. intros v Hv. now apply Rdiv_lt_0_compat.
  - apply normalised_sum. lra.
Qed.

(* ================================================================= *)
(** ** The constructor establishes the invariants *)

Lemma has_value_nonempty (w : reads) : has_value w = true -> w <> [].
Proof. intros H E. subst w. discriminate. Qed.

Lemma READMeth_init_ready (h : heap) (mixtures : list reads) (lambda_t : list addr)
    (theta_high theta_low : list vector) (n : nat) (crit : R) (a : option vector)
    (T : nat) :
  valid_input h mixtures lambda_t theta_high theta_low T ->
  em_ready (snd (READMeth_init h mixtures lambda_t theta_high theta_low n crit a)) T.
Proof.
  intros (Hl & Hh & Hlo & HT & Hex & Hlam).
  set (self := snd (READMeth_init h mixtures lambda_t theta_high theta_low n crit a)).
  set (mask := map has_value mixtures).
  assert (Hmask : length mask = length mixtures) by apply length_map.
  assert (Hx : x self = filter has_value mixtures) by apply mask_select_filter.
  assert (Hne : x self <> []).
  { rewrite Hx. apply existsb_exists in Hex. destruct Hex as [w [Hin Hv]].
    intros E. assert (Hf : In w (filter has_value mixtures)) by now apply filter_In.
    rewrite E in Hf. exact Hf. }
  assert (HlenL : length (Lt self) = length (x self)).
  { change (Lt self) with (map (add_pseudocounts_loop h lambda_t) (Np.mask_select mask lambda_t)).
    rewrite length_map. apply mask_select_length; unfold mask; rewrite ?length_map; lia. }
  assert (HL : Forall (fun l => length l = T /\ Forall (fun v => 0 < v < 1) l) (Lt self)).
  { change (Lt self) with (map (add_pseudocounts_loop h lambda_t) (Np.mask_select mask lambda_t)).
    apply Forall_map. apply Forall_forall. intros r Hr.
    apply mask_select_incl in Hr.
    rewrite (proj1 (add_pseudocounts_loop_spec lambda_t h r) Hr).
    rewrite Forall_forall in Hlam. destruct (Hlam r Hr) as [Hlen Hrange].
    split; [now rewrite pseudocount_arrays_length|now apply pseudocount_arrays_open]. }
  unfold em_ready.
  split; [exact HT|]. split; [exact Hne|]. split.
  { rewrite Hx. apply Forall_forall. intros w Hw. apply filter_In in Hw.
    now apply has_value_nonempty. }
  split; [reflexivity|]. split; [exact HlenL|]. split; [exact HL|].
  split; [reflexivity|]. split; [reflexivity|]. split.
  { change (thetaH self) with (Np.mask_select mask theta_high).
    apply mask_select_length; unfold mask; rewrite ?length_map; lia. }
  split; [apply calc_x_given_prob_length|]. split; [apply calc_x_given_prob_length|].
  split.
  { intros w Hw. split; now apply calc_x_given_prob_row_length. }
  split; [reflexivity|].
  change (t self) with (length (nth 0 (Lt self) [])).
  apply (Forall_nth_lt _ [] (Lt self) 0%nat HL).
  rewrite HlenL. apply Nat.neq_0_lt_0. intros E. apply Hne.
  now apply length_zero_iff_nil.
Qed.

(* ================================================================= *)
(** ** The loop of [em] *)

Lemma em_body_inv (self : READMeth) (T i : nat) (st : em_state) :
  em_ready self T -> em_inv self T st ->
  em_inv self T (snd (em_body self i st))
  /\ proportions T (st_new_alpha (snd (em_body self i st)))
  /\ z_ok self T (st_z (snd (em_body self i st))).
Proof.
  intros Hready [[Hlen [Hpos Hsum]] Hmu].
  assert (Hmu' : forall w, (w < length (x self))%nat ->
            length (nth w (st_mu st) []) = length (nth w (x self) [])
            /\ Forall (fun v => 0 <= v <= 1) (nth w (st_mu st) [])).
  { intros w Hw. destruct Hmu as [_ Hmu]. destruct (Hmu w Hw) as [Hl Hr].
    split; [exact Hl|]. eapply Forall_impl; [|exact Hr]. cbv beta. intros; lra. }
  destruct (calc_z_ok self T (st_mu st) (st_alpha st) Hready Hlen Hpos Hmu') as [Hz _].
  pose proof (maximization_ok self T _ Hready Hz) as Hnew.
  pose proof (calc_mu_ok self T (st_alpha st) _ Hready Hlen Hz) as Hmu2.
  unfold em_body, em_inv.
  destruct (negb (i =? 0)%nat && test_convergence self (st_alpha st) _);
    cbn [snd st_alpha st_mu st_new_alpha st_z];
    (split; [split|split]);
    first [exact Hnew | exact Hmu2 | exact Hz | now repeat split].
Qed.

Lemma for_range_inv (self : READMeth) (T : nat) (rng : list nat) (st : em_state) :
  em_ready self T -> em_inv self T st ->
  em_inv self T (for_range (em_body self) rng st).
Proof.
  intros Hready. revert st. induction rng as [|i rng IH]; intros st Hinv; [exact Hinv|].
  cbn [for_range].
  pose proof (em_body_inv self T i st Hready Hinv) as [Hinv' _].
  destruct (em_body self i st) as [brk st']. cbn [snd] in Hinv'.
  destruct brk; [exact Hinv'|now apply IH].
Qed.

Lemma for_range_post (self : READMeth) (T : nat) (rng : list nat) (st : em_state) :
  em_ready self T -> em_inv self T st -> rng <> [] ->
  proportions T (st_new_alpha (for_range (em_body self) rng st))
  /\ z_ok self T (st_z (for_range (em_body self) rng st))
  /\ st_new_alpha (for_range (em_body self) rng st)
     = maximization self (st_z (for_range (em_body self) rng st))
  /\ In (st_i (for_range (em_body self) rng st)) rng
  /\ exists al, length al = T
       /\ st_mu (for_range (em_body self) rng st)
          = calc_mu self al (st_z (for_range (em_body self) rng st)).
Proof.
  intros Hready. revert st. induction rng as [|i rng IH]; intros st Hinv Hne;
    [now elim Hne|].
  cbn [for_range].
  pose proof (em_body_inv self T i st Hready Hinv) as (Hinv' & Hnew & Hz).
  assert (Hshape : st_new_alpha (snd (em_body self i st))
                   = maximization self (st_z (snd (em_body self i st)))
                   /\ st_i (snd (em_body self i st)) = i
                   /\ st_mu (snd (em_body self i st))
                      = calc_mu self (st_alpha st) (st_z (snd (em_body self i st)))).
  { unfold em_body.
    destruct (negb (i =? 0)%nat && test_convergence self (st_alpha st) _);
      cbn [snd st_new_alpha st_z st_i st_mu]; repeat split. }
  destruct Hshape as (Hmax & Hi & Hmu).
  assert (Hlen : length (st_alpha st) = T) by apply Hinv.
  destruct (em_body self i st) as [brk st']. cbn [snd] in *.
  assert (Hhere : proportions T (st_new_alpha st')
                  /\ z_ok self T (st_z st')
                  /\ st_new_alpha st' = maximization self (st_z st')
                  /\ In (st_i st') (i :: rng)
                  /\ exists al, length al = T /\ st_mu st' = calc_mu self al (st_z st')).
  { split; [exact Hnew|]. split; [exact Hz|]. split; [exact Hmax|].
    split; [left; now symmetry|]. now exists (st_alpha st). }
  destruct brk; [exact Hhere|].
  destruct rng as [|j rng']; [exact Hhere|].
  destruct (IH st' Hinv') as (H1 & H2 & H3 & H4 & H5); [discriminate|].
  split; [exact H1|]. split; [exact H2|]. split; [exact H3|].
  split; [now right|exact H5].
Qed.

Lemma em_run_start (uniform : nat -> vector) (self : READMeth) (T : nat) :
  em_ready self T -> valid_alpha uniform (alpha self) T ->
  em_inv self T (em_start uniform self).
Proof.
  intros Hready Hv. pose proof (init_alpha_ok uniform self T Hready Hv) as Hp.
  split; [exact Hp|]. cbn [st_mu].
  destruct Hp as (Hlen & Hpos & _). now apply (init_mu_no_log_ok self T).
Qed.

(** C2: on valid input, the entries of [alpha] sum to 1 after
    [init_alpha] (a supplied proportion vector is kept, a random draw is
    normalised) and after every maximization step: whatever the number [k]
    of passes the loop of [em] is given, the [alpha] it leaves sums to 1,
    and so does the candidate [new_alpha] of its last pass, which is the
    result of [maximization] on the [z] of that pass. *)
Theorem alpha_sums_to_one :
  forall (h : heap) (mixtures : list reads) (lambda_t : list addr)
         (theta_high theta_low : list vector) (n : nat) (crit : R) (a : option vector)
         (uniform : nat -> vector) (T : nat),
    let self := snd (READMeth_init h mixtures lambda_t theta_high theta_low n crit a) in
    valid_input h mixtures lambda_t theta_high theta_low T ->
    valid_alpha uniform a T ->
    Np.sum (init_alpha uniform self) = 1
    /\ forall k,
         Np.sum (st_alpha (em_run uniform self k)) = 1
         /\ ((0 < k)%nat ->
             st_new_alpha (em_run uniform self k)
             = maximization self (st_z (em_run uniform self k))
             /\ Np.sum (st_new_alpha (em_run uniform self k)) = 1).
Proof.
  intros h mixtures lambda_t theta_high theta_low n crit a uniform T self Hin Ha.
  pose proof (READMeth_init_ready h mixtures lambda_t theta_high theta_low n crit a T Hin)
    as Hready. fold self in Hready.
  assert (Ha' : valid_alpha uniform (alpha self) T) by exact Ha.
  pose proof (em_run_start uniform self T Hready Ha') as Hstart.
  split; [apply (init_alpha_ok uniform self T Hready Ha')|].
  intros k. split.
  - apply (for_range_inv self T (seq 0 k) _ Hready Hstart).
  - intros Hk.
    destruct (for_range_post self T (seq 0 k) _ Hready Hstart) as (Hp & _ & Hmax & _).
    { destruct k; [lia|discriminate]. }
    split; [exact Hmax|apply Hp].
Qed.

(** C3: on valid input, for any [alpha] with positive entries and any [mu]
    with entries in [0,1], the matrix [calc_z] returns for a window has one
    row per cell type, and the entries of each read's column sum to 1. *)
Theorem calc_z_columns_sum_to_one :
  forall (h : heap) (mixtures : list reads) (lambda_t : list addr)
         (theta_high theta_low : list vector) (n : nat) (crit : R) (a : option vector)
         (T : nat) (mu : list vector) (al : vector) (w r : nat),
    let self := snd (READMeth_init h mixtures lambda_t theta_high theta_low n crit a) in
    valid_input h mixtures lambda_t theta_high theta_low T ->
    length al = T ->
    Forall (fun v => 0 < v) al ->
    (forall w', (w' < length (x self))%nat ->
       length (nth w' mu []) = length (nth w' (x self) [])
       /\ Forall (fun v => 0 <= v <= 1) (nth w' mu [])) ->
    (w < length (x self))%nat ->
    (r < length (nth w (x self) []))%nat ->
    has_shape T (length (nth w (x self) [])) (nth w (calc_z self mu al) [])
    /\ Np.sum (map (fun row => nth r row 0) (nth w (calc_z self mu al) [])) = 1.
Proof.
  intros h mixtures lambda_t theta_high theta_low n crit a T mu al w r self
         Hin Hlen Hpos Hmu Hw Hr.
  pose proof (READMeth_init_ready h mixtures lambda_t theta_high theta_low n crit a T Hin)
    as Hready. fold self in Hready.
  destruct (calc_z_ok self T mu al Hready Hlen Hpos Hmu) as [[_ Hz] Hcol].
  split; [apply (Hz w Hw)|now apply Hcol].
Qed.

(** In exact arithmetic the entries of [mu] lie strictly between 0 and 1:
    those of [init_mu_no_log], those of [calc_mu] for any [z] of positive
    entries, and those the loop of [em] holds after any number [k] of
    passes. *)
Lemma mu_strictly_between_0_and_1 :
  forall (h : heap) (mixtures : list reads) (lambda_t : list addr)
         (theta_high theta_low : list vector) (n : nat) (crit : R) (a : option vector)
         (uniform : nat -> vector) (T : nat),
    let self := snd (READMeth_init h mixtures lambda_t theta_high theta_low n crit a) in
    let inside := fun mu : list vector =>
      length mu = length (x self)
      /\ forall w, (w < length (x self))%nat ->
           length (nth w mu []) = length (nth w (x self) [])
           /\ Forall (fun v => 0 < v < 1) (nth w mu []) in
    valid_input h mixtures lambda_t theta_high theta_low T ->
    valid_alpha uniform a T ->
    inside (init_mu_no_log self (init_alpha uniform self))
    /\ (forall (al : vector) (z : list matrix),
          length al = T -> z_ok self T z -> inside (calc_mu self al z))
    /\ (forall k, inside (st_mu (em_run uniform self k)))
    /\ (forall k, (0 < k)%nat ->
          z_ok self T (st_z (em_run uniform self k))
          /\ exists al, length al = T
               /\ st_mu (em_run uniform self k)
                  = calc_mu self al (st_z (em_run uniform self k))).
Proof.
  intros h mixtures lambda_t theta_high theta_low n crit a uniform T self inside Hin Ha.
  pose proof (READMeth_init_ready h mixtures lambda_t theta_high theta_low n crit a T Hin)
    as Hready. fold self in Hready.
  assert (Ha' : valid_alpha uniform (alpha self) T) by exact Ha.
  pose proof (em_run_start uniform self T Hready Ha') as Hstart.
  split; [apply Hstart|]. split.
  { intros al z Hal Hz. now apply (calc_mu_ok self T). }
  split.
  { intros k. apply (for_range_inv self T (seq 0 k) _ Hready Hstart). }
  intros k Hk.
  destruct (for_range_post self T (seq 0 k) _ Hready Hstart) as (_ & Hz & _ & _ & Hmu).
  { destruct k; [lia|discriminate]. }
  split; [exact Hz|exact Hmu].
Qed.

(* ================================================================= *)
(** ** Convergence *)

Lemma sum_abs_of_pos (v : vector) :
  Forall (fun u => 0 < u) v -> Np.sum (map Rabs v) = Np.sum v.
Proof.
  induction 1 as [|u v Hu _ IH]; [reflexivity|].
  cbn [map]. rewrite !sum_cons, IH, Rabs_right by lra. reflexivity.
Qed.

Lemma sum_abs_diff_le (a b : vector) :
  length a = length b ->
  Forall (fun u => 0 < u) a -> Forall (fun u => 0 < u) b ->
  Np.sum (map Rabs (Np.zipWith Rminus b a)) <= Np.sum b + Np.sum a.
Proof.
  intros Hlen Ha. revert b Hlen.
  induction Ha as [|u a Hu _ IH]; intros [|v b] Hlen Hb; simpl in Hlen; try lia.
  - cbn [Np.zipWith map]. rewrite sum_nil. lra.
  - inversion Hb as [|? ? Hv Hb']; subst.
    cbn [Np.zipWith map]. rewrite !sum_cons.
    assert (Rabs (v - u) <= v + u) by (unfold Rabs; destruct (Rcase_abs (v - u)); lra).
    specialize (IH b ltac:(lia) Hb'). lra.
Qed.

Lemma sum_abs_diff_lt (a b : vector) :
  length a = length b -> a <> [] ->
  Forall (fun u => 0 < u) a -> Forall (fun u => 0 < u) b ->
  Np.sum (map Rabs (Np.zipWith Rminus b a)) < Np.sum b + Np.sum a.
Proof.
  intros Hlen Hne Ha Hb.
  destruct Ha as [|u a Hu Ha]; [now elim Hne|].
  destruct Hb as [|v b Hv Hb]; [discriminate|].
  cbn [Np.zipWith map]. rewrite !sum_cons.
  assert (Rabs (v - u) < v + u) by (unfold Rabs; destruct (Rcase_abs (v - u)); lra).
  assert (Np.sum (map Rabs (Np.zipWith Rminus b a)) <= Np.sum b + Np.sum a).
  { apply sum_abs_diff_le; [simpl in Hlen; lia|assumption|assumption]. }
  lra.
Qed.

Lemma alpha_diff_lt_2 (T : nat) (a b : vector) :
  (0 < T)%nat -> proportions T a -> proportions T b -> alpha_diff a b < 2.
Proof.
  intros HT (Hla & Hpa & Hsa) (Hlb & Hpb & Hsb).
  assert (HT' : 0 < INR T) by now apply lt_0_INR.
  assert (Hne : a <> []).
  { intros E. rewrite E in Hla. simpl in Hla. lia. }
  pose proof (sum_abs_diff_lt a b ltac:(lia) Hne Hpa Hpb) as Hlt.
  unfold alpha_diff, Np.mean.
  rewrite !length_map, zipWith_length by lia.
  rewrite Hlb, Hla, (sum_abs_of_pos a Hpa), Hsa.
  replace (Np.sum (map Rabs (Np.zipWith Rminus b a)) / INR T / (1 / INR T))
    with (Np.sum (map Rabs (Np.zipWith Rminus b a))) by (field; lra).
  lra.
Qed.

Lemma test_convergence_true (self : READMeth) (al new_al : vector) :
  test_convergence self al new_al = true
  <-> alpha_diff al new_al < convergence_criteria self.
Proof.
  unfold test_convergence.
  destruct (Rlt_dec (alpha_diff al new_al) (convergence_criteria self));
    split; intros H; try assumption; try reflexivity; try discriminate.
  contradiction.
Qed.

Lemma em_body_first (self : READMeth) (st : em_state) :
  fst (em_body self 0 st) = false
  /\ st_alpha (snd (em_body self 0 st))
     = maximization self (calc_z self (st_mu st) (st_alpha st))
  /\ st_i (snd (em_body self 0 st)) = 0%nat.
Proof. unfold em_body. cbn. repeat split. Qed.

Lemma em_body_break (self : READMeth) (i : nat) (st : em_state) :
  i <> 0%nat ->
  (fst (em_body self i st) = true
   <-> test_convergence self (st_alpha st)
         (maximization self (calc_z self (st_mu st) (st_alpha st))) = true).
Proof.
  intros Hi. apply Nat.eqb_neq in Hi. unfold em_body. rewrite Hi. cbn [negb andb].
  destruct (test_convergence self (st_alpha st) _); cbn [fst]; tauto.
Qed.

Lemma em_body_stop (self : READMeth) (i : nat) (st : em_state) :
  fst (em_body self i st) = true ->
  st_alpha (snd (em_body self i st)) = st_alpha st
  /\ st_new_alpha (snd (em_body self i st))
     = maximization self (calc_z self (st_mu st) (st_alpha st))
  /\ st_i (snd (em_body self i st)) = i.
Proof.
  unfold em_body.
  destruct (negb (i =? 0)%nat && test_convergence self (st_alpha st) _);
    cbn [fst snd st_alpha st_new_alpha st_i]; [repeat split|discriminate].
Qed.

Lemma em_body_go (self : READMeth) (i : nat) (st : em_state) :
  fst (em_body self i st) = false ->
  st_alpha (snd (em_body self i st)) = st_new_alpha (snd (em_body self i st)).
Proof.
  unfold em_body.
  destruct (negb (i =? 0)%nat && test_convergence self (st_alpha st) _);
    cbn [fst snd st_alpha st_new_alpha]; [discriminate|reflexivity].
Qed.

Lemma for_range_cons_stop (body : nat -> em_state -> bool * em_state)
    (i : nat) (rest : list nat) (st : em_state) :
  fst (body i st) = true -> for_range body (i :: rest) st = snd (body i st).
Proof. cbn [for_range]. destruct (body i st) as [brk st']. cbn. now intros ->. Qed.

Lemma for_range_cons_go (body : nat -> em_state -> bool * em_state)
    (i : nat) (rest : list nat) (st : em_state) :
  fst (body i st) = false ->
  for_range body (i :: rest) st = for_range body rest (snd (body i st)).
Proof. cbn [for_range]. destruct (body i st) as [brk st']. cbn. now intros ->. Qed.

Lemma for_range_app (body : nat -> em_state -> bool * em_state)
    (l1 l2 : list nat) (st : em_state) :
  runs_through body l1 st ->
  for_range body (l1 ++ l2) st = for_range body l2 (for_range body l1 st).
Proof.
  revert st. induction l1 as [|i l1 IH]; intros st H; [reflexivity|].
  destruct H as [Hgo Hrest]. cbn [app].
  rewrite !for_range_cons_go by exact Hgo. now apply IH.
Qed.

Lemma for_range_index (self : READMeth) (rng : list nat) (st : em_state) :
  rng <> [] -> In (st_i (for_range (em_body self) rng st)) rng.
Proof.
  revert st. induction rng as [|i rng IH]; intros st Hne; [now elim Hne|].
  assert (Hi : st_i (snd (em_body self i st)) = i).
  { unfold em_body.
    destruct (negb (i =? 0)%nat && test_convergence self (st_alpha st) _); reflexivity. }
  destruct (fst (em_body self i st)) eqn:E.
  - rewrite for_range_cons_stop by exact E. now left.
  - rewrite for_range_cons_go by exact E.
    destruct rng as [|j rng']; [left; now symmetry|].
    right. apply IH. discriminate.
Qed.

Lemma em_index_zero (uniform : nat -> vector) (self : READMeth) :
  snd (em uniform self) = 0%nat <-> (num_iterations self <= 1)%nat.
Proof.
  unfold em, em_run. cbn [snd].
  destruct (num_iterations self) as [|[|k]].
  - cbn. split; [lia|reflexivity].
  - cbn [seq]. rewrite for_range_cons_go by apply em_body_first.
    cbn [for_range]. split; [lia|intros _; apply em_body_first].
  - split; [|lia]. intros H. exfalso.
    change (seq 0 (S (S k))) with (0%nat :: seq 1 (S k)) in H.
    rewrite for_range_cons_go in H by apply em_body_first.
    pose proof (for_range_index self (seq 1 (S k))
                  (snd (em_body self 0 (em_start uniform self)))
                  ltac:(discriminate)) as Hin.
    rewrite H in Hin. apply in_seq in Hin. lia.
Qed.

Lemma em_stops_at_one (uniform : nat -> vector) (self : READMeth) (T : nat) :
  em_ready self T -> valid_alpha uniform (alpha self) T ->
  2 <= convergence_criteria self -> (2 <= num_iterations self)%nat ->
  let st := em_run uniform self 1 in
  test_convergence self (st_alpha st)
    (maximization self (calc_z self (st_mu st) (st_alpha st))) = true
  /\ em uniform self = (st_alpha st, 1%nat).
Proof.
  intros Hready Ha Hcrit Hn st.
  assert (HT : (0 < T)%nat) by apply Hready.
  pose proof (em_run_start uniform self T Hready Ha) as Hstart.
  assert (Hst : st = snd (em_body self 0 (em_start uniform self))).
  { unfold st, em_run. cbn [seq].
    rewrite for_range_cons_go by apply em_body_first. reflexivity. }
  pose proof (em_body_inv self T 0 _ Hready Hstart) as (Hinv & _). rewrite <- Hst in Hinv.
  pose proof (em_body_inv self T 1 st Hready Hinv) as (_ & Hnew & _).
  assert (Htest : test_convergence self (st_alpha st)
                    (maximization self (calc_z self (st_mu st) (st_alpha st))) = true).
  { apply test_convergence_true.
    assert (Hc : st_new_alpha (snd (em_body self 1 st))
                 = maximization self (calc_z self (st_mu st) (st_alpha st))).
    { unfold em_body.
      destruct (negb (1 =? 0)%nat && test_convergence self (st_alpha st) _); reflexivity. }
    rewrite Hc in Hnew.
    pose proof (alpha_diff_lt_2 T _ _ HT (proj1 Hinv) Hnew). lra. }
  split; [exact Htest|].
  assert (Hbrk : fst (em_body self 1 st) = true).
  { apply em_body_break; [discriminate|exact Htest]. }
  unfold em, em_run.
  destruct (num_iterations self) as [|[|k]]; try lia.
  change (seq 0 (S (S k))) with (0%nat :: 1%nat :: seq 2 k).
  rewrite for_range_cons_go by apply em_body_first.
  rewrite <- Hst, for_range_cons_stop by exact Hbrk.
  destruct (em_body_stop self 1 st Hbrk) as (H1 & _ & H3).
  now rewrite H1, H3.
Qed.

Lemma runs_through_app (body : nat -> em_state -> bool * em_state)
    (l1 l2 : list nat) (st : em_state) :
  runs_through body (l1 ++ l2) st ->
  runs_through body l1 st /\ runs_through body l2 (for_range body l1 st).
Proof.
  revert st. induction l1 as [|i l1 IH]; intros st H; [now split|].
  destruct H as [Hgo Hrest]. destruct (IH _ Hrest) as [H1 H2].
  split; [now split|]. now rewrite for_range_cons_go by exact Hgo.
Qed.

(** C4: a pass with index 0 never ends in [break] (the convergence test
    is not consulted); a pass with index [i >= 1] ends in [break] exactly
    when [mean(|new_alpha - alpha|) / mean(|alpha|)] is strictly below
    [convergence_criteria]; [em] returns index 0 only when the loop has at
    most one pass; and on valid input, with a threshold of at least 2 (10.0
    for one) and at least two passes allowed, [em] stops at index 1. *)
Theorem convergence_test_after_first_pass :
  forall (h : heap) (mixtures : list reads) (lambda_t : list addr)
         (theta_high theta_low : list vector) (n : nat) (crit : R) (a : option vector)
         (uniform : nat -> vector) (T : nat),
    let self := snd (READMeth_init h mixtures lambda_t theta_high theta_low n crit a) in
    valid_input h mixtures lambda_t theta_high theta_low T ->
    valid_alpha uniform a T ->
    (forall st, fst (em_body self 0 st) = false)
    /\ (forall i st, i <> 0%nat ->
          let new_alpha := maximization self (calc_z self (st_mu st) (st_alpha st)) in
          fst (em_body self i st) = true
          <-> Np.mean (map Rabs (Np.zipWith Rminus new_alpha (st_alpha st)))
              / Np.mean (map Rabs (st_alpha st)) < crit)
    /\ (snd (em uniform self) = 0%nat <-> (n <= 1)%nat)
    /\ (2 <= crit -> (2 <= n)%nat -> snd (em uniform self) = 1%nat).
Proof.
  intros h mixtures lambda_t theta_high theta_low n crit a uniform T self Hin Ha.
  pose proof (READMeth_init_ready h mixtures lambda_t theta_high theta_low n crit a T Hin)
    as Hready. fold self in Hready.
  split; [intros st; apply em_body_first|]. split.
  { intros i st Hi new_alpha.
    rewrite (em_body_break self i st Hi). apply test_convergence_true. }
  split; [apply (em_index_zero uniform self)|].
  intros Hcrit Hn.
  destruct (em_stops_at_one uniform self T Hready Ha Hcrit Hn) as [_ E].
  now rewrite E.
Qed.

Lemma em_run_stops (uniform : nat -> vector) (self : READMeth) (i : nat) :
  (i < num_iterations self)%nat ->
  runs_through (em_body self) (seq 0 i) (em_start uniform self) ->
  fst (em_body self i (em_run uniform self i)) = true ->
  em_run uniform self (num_iterations self)
  = snd (em_body self i (em_run uniform self i)).
Proof.
  intros Hn Hrun Hbrk. unfold em_run at 1.
  replace (num_iterations self) with (i + S (num_iterations self - S i))%nat by lia.
  rewrite seq_app, for_range_app by exact Hrun.
  cbn [seq Nat.add]. now rewrite for_range_cons_stop.
Qed.

(** C1 (as the code has it): when the loop of [em] reaches a pass
    [i >= 1] and the convergence test succeeds there, the loop ends without
    assigning the candidate: [em] returns, with [i], the [alpha] the pass
    started from, which is the candidate the previous pass committed; the
    candidate of pass [i] stays in the local [new_alpha]. *)
Theorem converged_em_returns_previous_alpha :
  forall (uniform : nat -> vector) (self : READMeth) (i : nat),
    let st := em_run uniform self i in
    let candidate := maximization self (calc_z self (st_mu st) (st_alpha st)) in
    (1 <= i)%nat -> (i < num_iterations self)%nat ->
    runs_through (em_body self) (seq 0 i) (em_start uniform self) ->
    test_convergence self (st_alpha st) candidate = true ->
    em uniform self = (st_alpha st, i)
    /\ st_alpha st = st_new_alpha st
    /\ st_new_alpha (em_run uniform self (num_iterations self)) = candidate.
Proof.
  intros uniform self i st candidate Hi Hn Hrun Htest.
  assert (Hbrk : fst (em_body self i st) = true).
  { apply em_body_break; [lia|exact Htest]. }
  destruct (em_body_stop self i st Hbrk) as (H1 & H2 & H3).
  pose proof (em_run_stops uniform self i Hn Hrun Hbrk) as Hfinal.
  fold st in Hfinal.
  split; [|split].
  - unfold em. now rewrite Hfinal, H1, H3.
  - unfold st, em_run in *. destruct i as [|j]; [lia|].
    rewrite seq_S in *. cbn [Nat.add] in *.
    destruct (runs_through_app _ _ _ _ Hrun) as [Hrun1 [Hgo _]].
    rewrite for_range_app by exact Hrun1.
    rewrite for_range_cons_go by exact Hgo. cbn [for_range].
    now apply em_body_go.
  - now rewrite Hfinal.
Qed.

(** C10: with a supplied [alpha], [em] does not depend on the random
    source; and constructing the engine again from the same arguments, on
    the store the first construction left (its lambda arrays corrected in
    place), gives the same engine and the same store, hence the same
    output of [em]: final alpha and iteration index. *)
Theorem em_deterministic_given_alpha :
  forall (h : heap) (mixtures : list reads) (lambda_t : list addr)
         (theta_high theta_low : list vector) (n : nat) (crit : R) (a : vector)
         (uniform1 uniform2 : nat -> vector),
    let run1 := READMeth_init h mixtures lambda_t theta_high theta_low n crit (Some a) in
    let run2 := READMeth_init (fst run1) mixtures lambda_t theta_high theta_low n crit
                  (Some a) in
    em uniform1 (snd run1) = em uniform2 (snd run1)
    /\ snd run2 = snd run1
    /\ (forall r, fst run2 r = fst run1 r)
    /\ em uniform1 (snd run1) = em uniform2 (snd run2).
Proof.
  intros h mixtures lambda_t theta_high theta_low n crit a uniform1 uniform2 run1 run2.
  assert (Hem : forall self, alpha self = Some a -> em uniform1 self = em uniform2 self).
  { intros self Hs. unfold em, em_run, em_start, init_alpha. now rewrite Hs. }
  assert (Hheap : forall r, fst run2 r = fst run1 r).
  { intros r. change (fst run2) with (add_pseudocounts_loop (fst run1) lambda_t).
    change (fst run1) with (add_pseudocounts_loop h lambda_t).
    destruct (in_dec Nat.eq_dec r lambda_t) as [Hr|Hr].
    - rewrite (proj1 (add_pseudocounts_loop_spec lambda_t _ r) Hr).
      rewrite (proj1 (add_pseudocounts_loop_spec lambda_t h r) Hr).
      apply pseudocount_arrays_idem.
    - now rewrite (proj2 (add_pseudocounts_loop_spec lambda_t _ r) Hr). }
  assert (HLt : map (fst run2) (Lt_obj (snd run1)) = map (fst run1) (Lt_obj (snd run1))).
  { apply map_ext. exact Hheap. }
  assert (Hsame : snd run2 = snd run1).
  { unfold run2, READMeth_init. cbv zeta.
    cbn [add_pseudocounts filter_no_coverage snd].
    change (add_pseudocounts_loop (fst run1) lambda_t) with (fst run2).
    change (Np.mask_select (map has_value mixtures) lambda_t) with (Lt_obj (snd run1)).
    rewrite HLt. reflexivity. }
  split; [now apply Hem|]. split; [exact Hsame|]. split; [exact Hheap|].
  rewrite Hsame. now apply Hem.
Qed.

(* ================================================================= *)
(** ** The small data set, computed *)

Ltac list_eq :=
  repeat match goal with
         | |- cons _ _ = cons _ _ => apply f_equal2
         | |- nil = nil => reflexivity
         end.

Ltac arrays_compute :=
  cbv [Np.sum Np.mean Np.zipWith Np.shape0 Np.shape1 Np.transpose Np.tile Np.ones
       Np.sum_axis0 Np.sum_axis1 Np.mzip Np.mmap Np.bcast Np.bcast_r Np.dot Np.matvec
       Np.hstack Np.logsumexp_axis0 Np.astype_int
       map seq nth length repeat hd fold_right app].

Lemma ex_valid_input :
  valid_input ex_heap ex_mixtures ex_lambda_t ex_theta_high ex_theta_low 2.
Proof.
  unfold valid_input. repeat (split; [first [reflexivity | lia]|]).
  repeat constructor; lra.
Qed.

Lemma ex_valid_alpha : valid_alpha ex_uniform (Some ex_alpha) 2.
Proof.
  unfold valid_alpha, proportions, ex_alpha. split; [reflexivity|]. split.
  - repeat constructor; lra.
  - rewrite !sum_cons, sum_nil. lra.
Qed.

Lemma ex_ready : em_ready ex_engine 2.
Proof. apply READMeth_init_ready, ex_valid_input. Qed.

Lemma ex_x : x ex_engine = [[[METHYLATED]]].
Proof. reflexivity. Qed.

Lemma ex_x_c_m : x_c_m ex_engine = [[[true]]].
Proof. reflexivity. Qed.

Lemma ex_thetaH : thetaH ex_engine = [[3/4]].
Proof. reflexivity. Qed.

Lemma ex_c : c ex_engine = 1%nat.
Proof. reflexivity. Qed.

Lemma pseudocount_arrays_id (arr : vector) :
  Forall (fun v => v <> 0 /\ v <> 1) arr -> add_where_zero (sub_where_one arr) = arr.
Proof.
  intros H. unfold add_where_zero, sub_where_one. rewrite map_map.
  rewrite <- (map_id arr) at 2. apply map_ext_in. intros v Hv.
  rewrite Forall_forall in H. destruct (H v Hv).
  destruct (Req_dec_T v 1); [contradiction|].
  destruct (Req_dec_T v 0); [contradiction|reflexivity].
Qed.

Lemma ex_Lt : Lt ex_engine = [[3/4; 1/4]].
Proof.
  change (Lt ex_engine) with [add_pseudocounts_loop ex_heap ex_lambda_t 0%nat].
  rewrite (proj1 (add_pseudocounts_loop_spec ex_lambda_t ex_heap 0%nat)) by (now left).
  change (ex_heap 0%nat) with [3/4; 1/4].
  rewrite pseudocount_arrays_id; [reflexivity|].
  repeat constructor; lra.
Qed.

Lemma ex_log_x_given_H : log_x_given_H ex_engine = [[ln (3/4)]].
Proof.
  change (log_x_given_H ex_engine)
    with (calc_x_given_prob [[[METHYLATED]]] [[[true]]] [[[false]]] [[3/4]]).
  unfold calc_x_given_prob. arrays_compute.
  rewrite !nan_to_num_log_pos by lra. list_eq. lra.
Qed.

Lemma ex_log_x_given_L : log_x_given_L ex_engine = [[ln (1/4)]].
Proof.
  change (log_x_given_L ex_engine)
    with (calc_x_given_prob [[[METHYLATED]]] [[[true]]] [[[false]]] [[1/4]]).
  unfold calc_x_given_prob. arrays_compute.
  rewrite !nan_to_num_log_pos by lra. list_eq. lra.
Qed.

Lemma ex_log_Lt : log_Lt ex_engine = [[ln (3/4); ln (1/4)]].
Proof.
  change (log_Lt ex_engine) with (map (map ln) (Lt ex_engine)). now rewrite ex_Lt.
Qed.

Lemma ex_log_one_minus_Lt :
  log_one_minus_Lt ex_engine = [[ln (1 - 3/4); ln (1 - 1/4)]].
Proof.
  change (log_one_minus_Lt ex_engine)
    with (map (map (fun l => ln (1 - l))) (Lt ex_engine)).
  now rewrite ex_Lt.
Qed.

Lemma ex_init_mu : init_mu_no_log ex_engine ex_alpha = [[15/22]].
Proof.
  unfold init_mu_no_log.
  rewrite ex_thetaH, ex_x_c_m, ex_log_x_given_H, ex_log_x_given_L, ex_Lt.
  unfold ex_alpha. arrays_compute. rewrite !exp_ln by lra.
  list_eq. field.
Qed.

Lemma ex_calc_z (u a0 a1 : R) :
  calc_z ex_engine [[u]] [a0; a1]
  = [[[ (u * (3/4) * a0 + (1 - u) * (1 - 3/4) * a0)
        / (u * (3/4) * a0 + (1 - u) * (1 - 3/4) * a0
           + (u * (1/4) * a1 + (1 - u) * (1 - 1/4) * a1 + 0)) ];
      [ (u * (1/4) * a1 + (1 - u) * (1 - 1/4) * a1)
        / (u * (3/4) * a0 + (1 - u) * (1 - 3/4) * a0
           + (u * (1/4) * a1 + (1 - u) * (1 - 1/4) * a1 + 0)) ]]].
Proof.
  unfold calc_z. rewrite ex_x, ex_x_c_m, ex_Lt. arrays_compute. reflexivity.
Qed.

Lemma ex_maximization (p q : R) :
  maximization ex_engine [[[p]; [q]]]
  = [ (p + 0) / 1 / ((p + 0) / 1 + ((q + 0) / 1 + 0));
      (q + 0) / 1 / ((p + 0) / 1 + ((q + 0) / 1 + 0)) ].
Proof.
  unfold maximization. rewrite ex_c. arrays_compute. simpl INR. reflexivity.
Qed.

Lemma exp_log3 (a b d : R) :
  0 < a -> 0 < b -> 0 < d -> exp (ln a * 1 + ln b * 1 + ln d) = a * b * d.
Proof.
  intros. rewrite !Rmult_1_r, !exp_plus, !exp_ln by assumption. reflexivity.
Qed.

Lemma softmax2_ratio (A B : R) :
  0 < A -> 0 < B -> exp (ln A - ln (exp (ln A) + (exp (ln B) + 0))) = A / (A + B).
Proof.
  intros HA HB. rewrite !exp_ln by assumption.
  unfold Rminus. rewrite exp_plus, exp_Ropp, !exp_ln by lra.
  unfold Rdiv. f_equal. f_equal. lra.
Qed.

Lemma ex_calc_mu (al : vector) (p q : R) :
  0 < p -> 0 < q -> length al = 2%nat ->
  calc_mu ex_engine al [[[p]; [q]]]
  = [[ (3/4 * (3/4) * p + 1/4 * (3/4) * q)
       / (3/4 * (3/4) * p + 1/4 * (3/4) * q
          + ((1 - 3/4) * (1/4) * p + (1 - 1/4) * (1/4) * q)) ]].
Proof.
  intros Hp Hq Hal. unfold calc_mu.
  rewrite ex_x, ex_x_c_m, ex_log_x_given_H, ex_log_x_given_L, ex_log_Lt,
    ex_log_one_minus_Lt, Hal.
  arrays_compute.
  rewrite !exp_log3 by lra.
  rewrite softmax2_ratio by nra.
  list_eq. field. nra.
Qed.

Lemma ex_em_run_1 :
  st_alpha (em_run ex_uniform ex_engine 1) = [13/31; 18/31]
  /\ st_mu (em_run ex_uniform ex_engine 1) = [[171/238]].
Proof.
  unfold em_run. cbn [seq]. rewrite for_range_cons_go by apply em_body_first.
  cbn [for_range].
  assert (E0 : em_start ex_uniform ex_engine = mk_state ex_alpha [] [[15/22]] [] [] 0).
  { unfold em_start. change (init_alpha ex_uniform ex_engine) with ex_alpha.
    now rewrite ex_init_mu. }
  rewrite E0. unfold em_body. cbn [Nat.eqb negb andb snd st_alpha st_mu].
  unfold ex_alpha at 1 2 3. rewrite ex_calc_z.
  split.
  - rewrite ex_maximization. list_eq; field.
  - rewrite ex_calc_mu; [|lra|lra|reflexivity].
    list_eq; field.
Qed.

Lemma ex_candidate :
  maximization ex_engine (calc_z ex_engine [[171/238]] [13/31; 18/31])
  = [1885/3559; 1674/3559].
Proof. rewrite ex_calc_z, ex_maximization. list_eq; field. Qed.

Lemma ex_converges_at_one :
  let st := em_run ex_uniform ex_engine 1 in
  test_convergence ex_engine (st_alpha st)
    (maximization ex_engine (calc_z ex_engine (st_mu st) (st_alpha st))) = true
  /\ em ex_uniform ex_engine = (st_alpha st, 1%nat).
Proof.
  apply (em_stops_at_one ex_uniform ex_engine 2 ex_ready ex_valid_alpha).
  - change (convergence_criteria ex_engine) with 10. lra.
  - change (num_iterations ex_engine) with 50%nat. lia.
Qed.

(** C1, refuted as stated: on the small data set (threshold 10, 50 passes
    allowed) the convergence test succeeds at pass 1 and [em] returns
    [[13/31; 18/31]] with index 1, while the candidate computed by that pass
    is [[1885/3559; 1674/3559]]. *)
Lemma converged_candidate_not_returned :
  let st := em_run ex_uniform ex_engine 1 in
  let candidate := maximization ex_engine (calc_z ex_engine (st_mu st) (st_alpha st)) in
  test_convergence ex_engine (st_alpha st) candidate = true
  /\ em ex_uniform ex_engine = ([13/31; 18/31], 1%nat)
  /\ st_new_alpha (em_run ex_uniform ex_engine (num_iterations ex_engine)) = candidate
  /\ candidate = [1885/3559; 1674/3559]
  /\ fst (em ex_uniform ex_engine) <> candidate.
Proof.
  intros st candidate.
  destruct ex_converges_at_one as [Htest Hem]. fold st in Htest, Hem. fold candidate in Htest.
  destruct ex_em_run_1 as [Ha Hm]. fold st in Ha, Hm.
  assert (Hc : candidate = [1885/3559; 1674/3559]).
  { unfold candidate. rewrite Ha, Hm. apply ex_candidate. }
  split; [exact Htest|]. split; [now rewrite Hem, Ha|]. split.
  { assert (Hbrk : fst (em_body ex_engine 1 st) = true).
    { apply em_body_break; [discriminate|exact Htest]. }
    rewrite (em_run_stops ex_uniform ex_engine 1).
    - apply (em_body_stop ex_engine 1 st Hbrk).
    - change (num_iterations ex_engine) with 50%nat. lia.
    - split; [apply em_body_first|exact I].
    - exact Hbrk. }
  split; [exact Hc|].
  rewrite Hem, Hc, Ha. cbn [fst]. intros E.
  injection E as E0 _. lra.
Qed.

(* ================================================================= *)
(** ** The theorems at the small data set *)

Lemma converged_em_returns_previous_alpha_witness :
  em ex_uniform ex_engine = (st_alpha (em_run ex_uniform ex_engine 1), 1%nat)
  /\ st_alpha (em_run ex_uniform ex_engine 1)
     = st_new_alpha (em_run ex_uniform ex_engine 1)
  /\ st_new_alpha (em_run ex_uniform ex_engine (num_iterations ex_engine))
     = maximization ex_engine
         (calc_z ex_engine (st_mu (em_run ex_uniform ex_engine 1))
            (st_alpha (em_run ex_uniform ex_engine 1))).
Proof.
  apply (converged_em_returns_previous_alpha ex_uniform ex_engine 1).
  - lia.
  - change (num_iterations ex_engine) with 50%nat. lia.
  - split; [apply em_body_first|exact I].
  - apply ex_converges_at_one.
Defined.

Lemma alpha_sums_to_one_witness :
  Np.sum (init_alpha ex_uniform ex_engine) = 1
  /\ forall k,
       Np.sum (st_alpha (em_run ex_uniform ex_engine k)) = 1
       /\ ((0 < k)%nat ->
           st_new_alpha (em_run ex_uniform ex_engine k)
           = maximization ex_engine (st_z (em_run ex_uniform ex_engine k))
           /\ Np.sum (st_new_alpha (em_run ex_uniform ex_engine k)) = 1).
Proof.
  exact (alpha_sums_to_one ex_heap ex_mixtures ex_lambda_t ex_theta_high ex_theta_low
           50 10 (Some ex_alpha) ex_uniform 2 ex_valid_input ex_valid_alpha).
Defined.

Lemma calc_z_columns_sum_to_one_witness :
  has_shape 2 1 (nth 0 (calc_z ex_engine [[1/2]] ex_alpha) [])
  /\ Np.sum (map (fun row => nth 0 row 0) (nth 0 (calc_z ex_engine [[1/2]] ex_alpha) [])) = 1.
Proof.
  apply (calc_z_columns_sum_to_one ex_heap ex_mixtures ex_lambda_t ex_theta_high
           ex_theta_low 50 10 (Some ex_alpha) 2 [[1/2]] ex_alpha 0 0 ex_valid_input).
  - reflexivity.
  - unfold ex_alpha. repeat constructor; lra.
  - intros w' Hw'. change (x ex_engine) with [[[METHYLATED]]] in *.
    destruct w' as [|w']; [|simpl in Hw'; lia].
    split; [reflexivity|]. repeat constructor; lra.
  - change (x ex_engine) with [[[METHYLATED]]]. simpl. lia.
  - change (x ex_engine) with [[[METHYLATED]]]. simpl. lia.
Defined.

Lemma convergence_test_after_first_pass_witness :
  snd (em ex_uniform ex_engine) = 1%nat.
Proof.
  destruct (convergence_test_after_first_pass ex_heap ex_mixtures ex_lambda_t
              ex_theta_high ex_theta_low 50 10 (Some ex_alpha) ex_uniform 2
              ex_valid_input ex_valid_alpha) as (_ & _ & _ & H).
  apply H; [lra|lia].
Defined.

Lemma maximization_normalised_mass_witness :
  maximization ex_engine [[[13/31]; [18/31]]]
  = map (fun v =>
           v / Np.sum (tab 2 (fun t0 => total_mass [[[13/31]; [18/31]]] t0
                                        / INR (c ex_engine))))
      (tab 2 (fun t0 => total_mass [[[13/31]; [18/31]]] t0 / INR (c ex_engine))).
Proof.
  destruct (maximization_normalised_mass ex_heap ex_mixtures ex_lambda_t ex_theta_high
              ex_theta_low 50 10 (Some ex_alpha) [[[13/31]; [18/31]]] 2)
    as (_ & _ & _ & H & _).
  - discriminate.
  - repeat constructor.
  - exact H.
Defined.

Lemma calc_x_given_prob_bernoulli_witness :
  nth 0 (nth 0 (calc_x_given_prob (x ex_engine) (x_c_m ex_engine) (x_c_u ex_engine)
                  ex_theta_high) []) 0
  = bernoulli_loglik [METHYLATED] [3/4].
Proof.
  destruct (calc_x_given_prob_bernoulli ex_heap ex_mixtures ex_lambda_t ex_theta_high
              ex_theta_low 50 10 (Some ex_alpha) ex_theta_high 0 0) as (_ & _ & H).
  - change (x ex_engine) with [[[METHYLATED]]]. simpl. lia.
  - change (x ex_engine) with [[[METHYLATED]]]. simpl. lia.
  - reflexivity.
  - apply H. cbn [ex_theta_high nth]. repeat constructor; lra.
Defined.

Lemma filter_no_coverage_retains_informative_witness :
  Forall (fun w => exists read cell, In read w /\ In cell read /\ cell <> NOVAL)
    (x ex_engine)
  /\ x ex_engine = map (fun k => nth k ex_mixtures []) (kept (map has_value ex_mixtures))
  /\ Lt_obj ex_engine
     = map (fun k => nth k ex_lambda_t 0%nat) (kept (map has_value ex_mixtures)).
Proof.
  destruct (filter_no_coverage_retains_informative ex_heap ex_mixtures ex_lambda_t
              ex_theta_high ex_theta_low 50 10 (Some ex_alpha))
    as (H1 & _ & H3 & H4 & _); try reflexivity.
  split; [exact H1|]. split; [exact H3|exact H4].
Defined.

Lemma add_pseudocounts_in_place_witness :
  nth 0 (fst (add_pseudocounts ex_heap ex_lambda_t) 1%nat) 0 = 1 - pseudocount
  /\ nth 1 (fst (add_pseudocounts ex_heap ex_lambda_t) 1%nat) 0 = 0 + pseudocount
  /\ Forall (Forall (fun v => 0 < v < 1)) (Lt ex_engine).
Proof.
  destruct (add_pseudocounts_in_place ex_heap ex_mixtures ex_lambda_t ex_theta_high
              ex_theta_low 50 10 (Some ex_alpha))
    as (_ & H2 & _ & _ & _ & _ & _ & _ & H9).
  - repeat constructor; lra.
  - destruct (H2 1%nat) as [_ Hk]; [right; now left|].
    split; [apply (Hk 0%nat); [simpl; lia|reflexivity]|].
    split; [apply (Hk 1%nat); [simpl; lia|reflexivity]|exact H9].
Defined.


(* ================================================================= *)
(** * Further properties of the engine *)

(* ================================================================= *)
(** ** The loop: budget, exhaustion, thresholds *)

Lemma em_body_index (self : READMeth) (i : nat) (st : em_state) :
  st_i (snd (em_body self i st)) = i.
Proof.
  unfold em_body.
  destruct (negb (i =? 0)%nat && test_convergence self (st_alpha st) _); reflexivity.
Qed.

Lemma em_body_candidate (self : READMeth) (i : nat) (st : em_state) :
  st_new_alpha (snd (em_body self i st)) = maximization self (st_z (snd (em_body self i st)))
  /\ st_z (snd (em_body self i st)) = calc_z self (st_mu st) (st_alpha st).
Proof.
  unfold em_body.
  destruct (negb (i =? 0)%nat && test_convergence self (st_alpha st) _); now split.
Qed.

(** X1: [em] never returns an index outside its budget: with
    [num_iterations = 0] it returns the initial alpha and index 0 (the loop
    body never runs), and with a positive budget the index is below
    [num_iterations]. *)
Theorem em_index_within_budget :
  forall (uniform : nat -> vector) (self : READMeth),
    (num_iterations self = 0%nat -> em uniform self = (init_alpha uniform self, 0%nat))
    /\ ((0 < num_iterations self)%nat ->
        (snd (em uniform self) < num_iterations self)%nat).
Proof.
  intros uniform self. split.
  - intros E. unfold em, em_run. rewrite E. reflexivity.
  - intros Hn. unfold em, em_run. cbn [snd].
    pose proof (for_range_index self (seq 0 (num_iterations self))
                  (em_start uniform self)) as Hin.
    destruct (num_iterations self) as [|k]; [lia|].
    specialize (Hin ltac:(discriminate)). apply in_seq in Hin. lia.
Qed.

Lemma runs_through_last (self : READMeth) (rng : list nat) (j : nat) (st : em_state) :
  runs_through (em_body self) (rng ++ [j]) st ->
  let st' := for_range (em_body self) (rng ++ [j]) st in
  st_alpha st' = st_new_alpha st'
  /\ st_i st' = j
  /\ st_new_alpha st' = maximization self (st_z st').
Proof.
  intros Hrun st'.
  destruct (runs_through_app _ _ _ _ Hrun) as [Hrun1 [Hgo _]].
  unfold st'. rewrite for_range_app by exact Hrun1.
  rewrite for_range_cons_go by exact Hgo. cbn [for_range].
  split; [now apply em_body_go|]. split; [apply em_body_index|apply em_body_candidate].
Qed.

(** X2: when every pass of a positive budget ends without [break] (the
    budget is exhausted), [em] returns the candidate of the last pass, which
    was committed, with index [num_iterations - 1]. *)
Theorem em_exhausted_returns_last_candidate :
  forall (uniform : nat -> vector) (self : READMeth),
    let st := em_run uniform self (num_iterations self) in
    (0 < num_iterations self)%nat ->
    runs_through (em_body self) (seq 0 (num_iterations self)) (em_start uniform self) ->
    em uniform self = (st_new_alpha st, (num_iterations self - 1)%nat)
    /\ st_new_alpha st = maximization self (st_z st).
Proof.
  intros uniform self st Hn Hrun. unfold st, em, em_run in *.
  destruct (num_iterations self) as [|k]; [lia|].
  rewrite seq_S in *. cbn [Nat.add] in *.
  destruct (runs_through_last self (seq 0 k) k _ Hrun) as (H1 & H2 & H3).
  rewrite H1, H2. split; [f_equal; lia|exact H3].
Qed.

Lemma div_nonneg (p q : R) : 0 <= p -> 0 <= q -> 0 <= p / q.
Proof.
  intros Hp Hq. destruct (Req_dec_T q 0) as [->|Hne].
  - rewrite Rdiv_0_r. lra.
  - apply Rmult_le_pos; [exact Hp|]. left. apply Rinv_0_lt_compat. lra.
Qed.

Lemma mean_abs_nonneg (v : vector) : 0 <= Np.mean (map Rabs v).
Proof.
  unfold Np.mean. apply div_nonneg; [|apply pos_INR].
  apply sum_nonneg. apply Forall_map. apply Forall_forall. intros u _. apply Rabs_pos.
Qed.

Lemma alpha_diff_nonneg (al new_al : vector) : 0 <= alpha_diff al new_al.
Proof. unfold alpha_diff. apply div_nonneg; apply mean_abs_nonneg. Qed.

Lemma nonpositive_criteria_runs_through (self : READMeth) (rng : list nat) (st : em_state) :
  convergence_criteria self <= 0 -> runs_through (em_body self) rng st.
Proof.
  intros Hc. revert st. induction rng as [|i rng IH]; intros st; [exact I|].
  split; [|apply IH].
  destruct (fst (em_body self i st)) eqn:E; [|reflexivity].
  destruct (Nat.eq_dec i 0) as [->|Hi].
  - rewrite (proj1 (em_body_first self st)) in E. discriminate.
  - apply (em_body_break self i st Hi) in E. apply test_convergence_true in E.
    pose proof (alpha_diff_nonneg (st_alpha st)
                  (maximization self (calc_z self (st_mu st) (st_alpha st)))).
    lra.
Qed.

(** X3: the relative change is never negative, so with a
    [convergence_criteria] of 0 or less the test never succeeds: [em] uses
    its whole budget and returns the last candidate with index
    [num_iterations - 1]. *)
Theorem nonpositive_criteria_never_converges :
  forall (uniform : nat -> vector) (self : READMeth),
    let st := em_run uniform self (num_iterations self) in
    convergence_criteria self <= 0 ->
    (0 < num_iterations self)%nat ->
    (forall al new_al, test_convergence self al new_al = false)
    /\ em uniform self = (st_new_alpha st, (num_iterations self - 1)%nat).
Proof.
  intros uniform self st Hc Hn. split.
  - intros al new_al. destruct (test_convergence self al new_al) eqn:E; [|reflexivity].
    apply test_convergence_true in E. pose proof (alpha_diff_nonneg al new_al). lra.
  - unfold st, em, em_run in *.
    pose proof (nonpositive_criteria_runs_through self (seq 0 (num_iterations self))
                  (em_start uniform self) Hc) as Hrun.
    destruct (num_iterations self) as [|k]; [lia|].
    rewrite seq_S in *. cbn [Nat.add] in *.
    destruct (runs_through_last self (seq 0 k) k _ Hrun) as (H1 & H2 & _).
    rewrite H1, H2. f_equal. lia.
Qed.

(* ================================================================= *)
(** ** The constructor when nothing is filtered *)

Lemma mask_select_all {A B : Type} (f : A -> bool) (l : list A) (arr : list B) :
  Forall (fun a => f a = true) l -> length arr = length l ->
  Np.mask_select (map f l) arr = arr.
Proof.
  intros H. revert arr. induction H as [|a l Ha _ IH]; intros [|b arr] Hlen;
    simpl in Hlen; try lia; [reflexivity|].
  cbn [map Np.mask_select]. rewrite Ha, IH by lia. reflexivity.
Qed.

Lemma mask_select_shorter {A : Type} (mask : list bool) (arr : list A) :
  (length (Np.mask_select mask arr) <= length arr)%nat.
Proof.
  revert arr. induction mask as [|b mask IH]; intros [|a arr]; cbn [Np.mask_select length];
    try lia.
  specialize (IH arr). destruct b; cbn [length]; lia.
Qed.

(** X4: the constructor never adds windows, and when every window has an
    informative call it drops none: [x], [Lt], [thetaH] and [thetaL] are the
    arguments, and the counts [c] and [m] are those of the whole input. *)
Theorem constructor_keeps_informative_input :
  forall (h : heap) (mixtures : list reads) (lambda_t : list addr)
         (theta_high theta_low : list vector) (n : nat) (crit : R) (a : option vector),
    let self := snd (READMeth_init h mixtures lambda_t theta_high theta_low n crit a) in
    length lambda_t = length mixtures ->
    length theta_high = length mixtures ->
    length theta_low = length mixtures ->
    (length (x self) <= length mixtures)%nat
    /\ (Forall (fun w => exists read cell, In read w /\ In cell read /\ cell <> NOVAL)
          mixtures ->
        x self = mixtures
        /\ Lt_obj self = lambda_t
        /\ thetaH self = theta_high
        /\ thetaL self = theta_low
        /\ c self = list_sum (map (@length (list call)) mixtures)
        /\ m self = list_sum (map (fun w => length (hd [] w)) mixtures)).
Proof.
  intros h mixtures lambda_t theta_high theta_low n crit a self Hl Hh Hlo.
  split; [apply mask_select_shorter|].
  intros Hall.
  assert (Hv : Forall (fun w => has_value w = true) mixtures).
  { eapply Forall_impl; [|exact Hall]. intros w Hw. now apply has_value_spec. }
  assert (Hx : x self = mixtures) by now apply mask_select_all.
  split; [exact Hx|]. split; [now apply mask_select_all|].
  split; [now apply mask_select_all|]. split; [now apply mask_select_all|].
  change (c self) with (list_sum (map (@length (list call)) (x self))).
  change (m self) with (list_sum (map (fun w => length (hd [] w)) (x self))).
  now rewrite Hx.
Qed.

(* ================================================================= *)
(** ** The range of the per-read log-likelihoods *)

Lemma site_loglik_noval (read : list call) (theta : vector) :
  Forall (fun cell => cell = NOVAL) read ->
  Np.sum (Np.zipWith site_loglik read theta) = 0.
Proof.
  intros H. revert theta. induction H as [|cell read Hc _ IH]; intros [|th theta];
    cbn [Np.zipWith]; rewrite ?sum_nil; try reflexivity.
  rewrite sum_cons, IH, Hc. cbn [site_loglik]. lra.
Qed.

Lemma ln_neg (p : R) : 0 < p < 1 -> ln p < 0.
Proof. intros H. rewrite <- ln_1. apply ln_increasing; lra. Qed.

Lemma site_loglik_nonpos (read : list call) (theta : vector) :
  Forall (fun th => 0 < th < 1) theta ->
  Np.sum (Np.zipWith site_loglik read theta) <= 0.
Proof.
  intros H. revert read. induction H as [|th theta Hth _ IH]; intros [|cell read];
    cbn [Np.zipWith]; rewrite ?sum_nil; try lra.
  rewrite sum_cons. specialize (IH read).
  assert (site_loglik cell th <= 0).
  { destruct cell; cbn [site_loglik]; rewrite ?nan_to_num_log_pos by lra;
      [left; apply ln_neg; lra|left; apply ln_neg; lra|lra]. }
  lra.
Qed.

(** X5: a read whose calls are all NOVAL gets log-likelihood exactly 0
    from [calc_x_given_prob], whatever the probabilities are; and when the
    window's probabilities lie strictly between 0 and 1, no read gets a
    positive log-likelihood. *)
Theorem calc_x_given_prob_range :
  forall (h : heap) (mixtures : list reads) (lambda_t : list addr)
         (theta_high theta_low : list vector) (n : nat) (crit : R) (a : option vector)
         (prob : list vector) (w r : nat),
    let self := snd (READMeth_init h mixtures lambda_t theta_high theta_low n crit a) in
    let res := calc_x_given_prob (x self) (x_c_m self) (x_c_u self) prob in
    (w < length (x self))%nat ->
    (r < length (nth w (x self) []))%nat ->
    (Forall (fun cell => cell = NOVAL) (nth r (nth w (x self) []) []) ->
     nth r (nth w res []) 0 = 0)
    /\ (Forall (fun th => 0 < th < 1) (nth w prob []) -> nth r (nth w res []) 0 <= 0).
Proof.
  intros h mixtures lambda_t theta_high theta_low n crit a prob w r self res Hw Hr.
  assert (E : nth r (nth w res []) 0
              = Np.sum (Np.zipWith site_loglik (nth r (nth w (x self) []) [])
                          (nth w prob []))).
  { subst res. change (x_c_m self) with (map (eq_mask METHYLATED) (x self)).
    change (x_c_u self) with (map (eq_mask UNMETHYLATED) (x self)).
    now apply calc_x_given_prob_entry. }
  rewrite E. split; intros H; [now apply site_loglik_noval|now apply site_loglik_nonpos].
Qed.

(* ================================================================= *)
(** ** Proportions and responsibilities stay inside (0,1] *)

Lemma pos_sum_entry_le (v : vector) (k : nat) :
  Forall (fun u => 0 < u) v -> (k < length v)%nat -> nth k v 0 <= Np.sum v.
Proof.
  intros H. revert k. induction H as [|u v Hu Hv IH]; intros k Hk; simpl in Hk; [lia|].
  rewrite sum_cons.
  assert (0 <= Np.sum v).
  { apply sum_nonneg. eapply Forall_impl; [|exact Hv]. cbv beta. intros; lra. }
  destruct k as [|k]; cbn [nth]; [lra|].
  specialize (IH k ltac:(lia)). lra.
Qed.

Lemma proportions_entries (T : nat) (v : vector) :
  proportions T v -> Forall (fun u => 0 < u <= 1) v.
Proof.
  intros (Hlen & Hpos & Hsum). apply Forall_forall. intros u Hu.
  destruct (In_nth v u 0 Hu) as [k [Hk <-]].
  split; [now apply (Forall_nth_lt _ 0 v k Hpos)|].
  rewrite <- Hsum. now apply pos_sum_entry_le.
Qed.

(** X6: on valid input, with an initial alpha of positive entries, the
    alpha held after any number of passes has one entry per cell type, each
    within [0,1]; the same holds for the alpha [em] returns, which sums
    to 1. *)
Theorem alpha_stays_a_distribution :
  forall (h : heap) (mixtures : list reads) (lambda_t : list addr)
         (theta_high theta_low : list vector) (n : nat) (crit : R) (a : option vector)
         (uniform : nat -> vector) (T : nat),
    let self := snd (READMeth_init h mixtures lambda_t theta_high theta_low n crit a) in
    valid_input h mixtures lambda_t theta_high theta_low T ->
    valid_alpha uniform a T ->
    (forall k, length (st_alpha (em_run uniform self k)) = T
               /\ Forall (fun v => 0 <= v <= 1) (st_alpha (em_run uniform self k)))
    /\ length (fst (em uniform self)) = T
    /\ Forall (fun v => 0 <= v <= 1) (fst (em uniform self))
    /\ Np.sum (fst (em uniform self)) = 1.
Proof.
  intros h mixtures lambda_t theta_high theta_low n crit a uniform T self Hin Ha.
  pose proof (READMeth_init_ready h mixtures lambda_t theta_high theta_low n crit a T Hin)
    as Hready. fold self in Hready.
  assert (Ha' : valid_alpha uniform (alpha self) T) by exact Ha.
  pose proof (em_run_start uniform self T Hready Ha') as Hstart.
  assert (Hk : forall k, proportions T (st_alpha (em_run uniform self k))).
  { intros k. apply (for_range_inv self T (seq 0 k) _ Hready Hstart). }
  assert (Hc : forall k, Forall (fun v => 0 <= v <= 1) (st_alpha (em_run uniform self k))).
  { intros k. eapply Forall_impl; [|apply (proportions_entries T), Hk].
    cbv beta. intros v Hv. lra. }
  split.
  - intros k. split; [apply (Hk k)|apply Hc].
  - unfold em. cbn [fst]. split; [apply Hk|]. split; [apply Hc|apply Hk].
Qed.

(** X7: under the conditions of the column-sum property, every
    responsibility [calc_z] returns lies within [0,1]. *)
Theorem calc_z_entries_in_unit_interval :
  forall (h : heap) (mixtures : list reads) (lambda_t : list addr)
         (theta_high theta_low : list vector) (n : nat) (crit : R) (a : option vector)
         (T : nat) (mu : list vector) (al : vector) (w t0 r : nat),
    let self := snd (READMeth_init h mixtures lambda_t theta_high theta_low n crit a) in
    valid_input h mixtures lambda_t theta_high theta_low T ->
    length al = T ->
    Forall (fun v => 0 < v) al ->
    (forall w', (w' < length (x self))%nat ->
       length (nth w' mu []) = length (nth w' (x self) [])
       /\ Forall (fun v => 0 <= v <= 1) (nth w' mu [])) ->
    (w < length (x self))%nat -> (t0 < T)%nat ->
    (r < length (nth w (x self) []))%nat ->
    0 <= nth r (nth t0 (nth w (calc_z self mu al) []) []) 0 <= 1.
Proof.
  intros h mixtures lambda_t theta_high theta_low n crit a T mu al w t0 r self
         Hin Hlen Hpos Hmu Hw Ht Hr.
  pose proof (READMeth_init_ready h mixtures lambda_t theta_high theta_low n crit a T Hin)
    as Hready. fold self in Hready.
  destruct (calc_z_ok self T mu al Hready Hlen Hpos Hmu) as [[_ Hz] Hcol].
  destruct (Hz w Hw) as [[Hrows Hcols] Hp]. specialize (Hcol w r Hw Hr).
  set (zw := nth w (calc_z self mu al) []) in *.
  assert (Hcolpos : Forall (fun v => 0 < v) (map (fun row => nth r row 0) zw)).
  { apply Forall_map. apply Forall_forall. intros row Hrow.
    rewrite Forall_forall in Hp, Hcols.
    apply (Forall_nth_lt _ 0 row r (Hp row Hrow)). rewrite (Hcols row Hrow). exact Hr. }
  pose proof (pos_sum_entry_le _ t0 Hcolpos) as Hle.
  rewrite length_map, Hrows in Hle. specialize (Hle Ht).
  rewrite (nth_map_lt (fun row => nth r row 0) zw [] 0 t0) in Hle by lia.
  split; [|lra]. left.
  apply (Forall_nth_lt _ 0 _ r (Forall_nth_lt _ [] zw t0 Hp ltac:(lia))).
  rewrite (Forall_nth_lt _ [] zw t0 Hcols) by lia. exact Hr.
Qed.

(* ================================================================= *)
(** ** The M-step on the responsibilities of the E-step *)

Lemma sum_tab_scal (n : nat) (k : R) (f : nat -> R) :
  Np.sum (tab n (fun i => k * f i)) = k * Np.sum (tab n f).
Proof.
  revert f. induction n as [|n IH]; intros f.
  - change (tab 0 _) with (@nil R). rewrite !sum_nil. lra.
  - rewrite !tab_S, !sum_cons, IH. lra.
Qed.

Lemma sum_tab_div (n : nat) (s : R) (f : nat -> R) :
  Np.sum (tab n (fun i => f i / s)) = Np.sum (tab n f) / s.
Proof. rewrite <- (map_tab (fun v => v / s)). apply sum_map_div. Qed.

Lemma sum_tab_eq (n : nat) (f g : nat -> R) :
  (forall i, (i < n)%nat -> f i = g i) -> Np.sum (tab n f) = Np.sum (tab n g).
Proof. intros H. f_equal. now apply tab_ext. Qed.

Lemma INR_list_sum (l : list nat) : INR (list_sum l) = Np.sum (map INR l).
Proof.
  induction l as [|k l IH]; [reflexivity|].
  change (list_sum (k :: l)) with (k + list_sum l)%nat.
  cbn [map]. now rewrite plus_INR, sum_cons, IH.
Qed.

Lemma total_mass_tab (z : list matrix) (t0 : nat) :
  total_mass z t0 = Np.sum (tab (length z) (fun w => Np.sum (nth t0 (nth w z []) []))).
Proof.
  unfold total_mass. rewrite (tab_nth [] z) at 1. now rewrite map_tab.
Qed.

Lemma total_mass_all (self : READMeth) (T : nat) (z : list matrix) :
  em_ready self T -> z_ok self T z ->
  (forall w r, (w < length (x self))%nat -> (r < length (nth w (x self) []))%nat ->
     Np.sum (map (fun row => nth r row 0) (nth w z [])) = 1) ->
  Np.sum (tab T (fun t0 => total_mass z t0)) = INR (c self).
Proof.
  intros Hready [Hzl Hz] Hcol.
  assert (Hc : c self = list_sum (map (@length (list call)) (x self))) by apply Hready.
  rewrite (sum_tab_eq T _ (fun t0 =>
             Np.sum (tab (length (x self))
                       (fun w => Np.sum (tab (length (nth w (x self) []))
                                           (fun r => nth r (nth t0 (nth w z []) []) 0)))))).
  2:{ intros t0 Ht. rewrite total_mass_tab, Hzl. apply sum_tab_eq. intros w Hw.
      destruct (Hz w Hw) as [[Hrows Hcols] _]. f_equal.
      apply tab_of_length. apply (Forall_nth_lt _ [] _ t0 Hcols). lia. }
  rewrite sum_tab_swap.
  rewrite (sum_tab_eq (length (x self)) _ (fun w => INR (length (nth w (x self) [])))).
  2:{ intros w Hw. rewrite sum_tab_swap.
      rewrite (sum_tab_eq _ _ (fun _ => 1)).
      - rewrite sum_tab_const. lra.
      - intros r Hr. rewrite <- (Hcol w r Hw Hr).
        destruct (Hz w Hw) as [[Hrows _] _]. f_equal. symmetry.
        rewrite (tab_of_length [] T (nth w z []) Hrows) at 1. now rewrite map_tab. }
  rewrite Hc, INR_list_sum, map_map. f_equal.
  rewrite (tab_nth [] (x self)) at 2. now rewrite map_tab.
Qed.

Lemma maximization_after_calc_z_ready (self : READMeth) (T : nat) (z : list matrix) :
  em_ready self T -> z_ok self T z ->
  (forall w r, (w < length (x self))%nat -> (r < length (nth w (x self) []))%nat ->
     Np.sum (map (fun row => nth r row 0) (nth w z [])) = 1) ->
  Np.sum (tab T (fun t0 => total_mass z t0 / INR (c self))) = 1
  /\ map (fun s => s / INR (c self)) (Np.sum_axis1 (Np.hstack z))
     = tab T (fun t0 => total_mass z t0 / INR (c self)).
Proof.
  intros Hready Hz Hcol.
  destruct (z_ok_rows self T z Hready Hz) as [Hne Hrows].
  pose proof (ready_c_pos self T Hready) as Hc.
  split.
  - rewrite sum_tab_div.
    transitivity (INR (c self) / INR (c self)); [|field; lra].
    f_equal. exact (total_mass_all self T z Hready Hz Hcol).
  - rewrite (hstack_rows z T Hne Hrows). unfold Np.sum_axis1. rewrite !map_tab.
    apply tab_ext. intros t0 _. unfold total_mass. now rewrite sum_concat, map_map.
Qed.

(** X8: on the responsibilities [calc_z] returns, the first division of
    [maximization] (by the read count [c]) already gives a vector that sums
    to 1, so the renormalisation changes nothing: the new proportion of a
    cell type is its total responsibility divided by the number of reads. *)
Theorem maximization_after_calc_z :
  forall (h : heap) (mixtures : list reads) (lambda_t : list addr)
         (theta_high theta_low : list vector) (n : nat) (crit : R) (a : option vector)
         (T : nat) (mu : list vector) (al : vector),
    let self := snd (READMeth_init h mixtures lambda_t theta_high theta_low n crit a) in
    let z := calc_z self mu al in
    let new_alpha := map (fun s => s / INR (c self)) (Np.sum_axis1 (Np.hstack z)) in
    valid_input h mixtures lambda_t theta_high theta_low T ->
    length al = T ->
    Forall (fun v => 0 < v) al ->
    (forall w', (w' < length (x self))%nat ->
       length (nth w' mu []) = length (nth w' (x self) [])
       /\ Forall (fun v => 0 <= v <= 1) (nth w' mu [])) ->
    Np.sum new_alpha = 1
    /\ maximization self z = new_alpha
    /\ forall t0, (t0 < T)%nat ->
         nth t0 (maximization self z) 0 = total_mass z t0 / INR (c self).
Proof.
  intros h mixtures lambda_t theta_high theta_low n crit a T mu al self z new_alpha
         Hin Hlen Hpos Hmu.
  pose proof (READMeth_init_ready h mixtures lambda_t theta_high theta_low n crit a T Hin)
    as Hready. fold self in Hready.
  destruct (calc_z_ok self T mu al Hready Hlen Hpos Hmu) as [Hz Hcol]. fold z in Hz, Hcol.
  destruct (maximization_after_calc_z_ready self T z Hready Hz Hcol) as [Hsum Hform].
  assert (Hmax : maximization self z = new_alpha).
  { unfold maximization. cbv zeta. fold new_alpha.
    unfold new_alpha at 1. rewrite Hform, Hsum.
    unfold new_alpha. rewrite Hform.
    rewrite <- (map_id (tab T _)) at 2. apply map_ext. intros v. field. }
  split; [unfold new_alpha; now rewrite Hform|]. split; [exact Hmax|].
  intros t0 Ht. rewrite Hmax. unfold new_alpha. rewrite Hform, nth_tab by exact Ht.
  reflexivity.
Qed.

(* ================================================================= *)
(** ** [calc_z] depends on alpha up to a positive factor *)

Lemma z_raw_scale (mu_win Lt_win al : vector) (k : R) (t0 r : nat) :
  (t0 < length al)%nat ->
  z_raw mu_win Lt_win (map (fun v => k * v) al) t0 r = k * z_raw mu_win Lt_win al t0 r.
Proof.
  intros Ht. unfold z_raw. rewrite (nth_map_lt (fun v => k * v) al 0 0 t0 Ht). ring.
Qed.

(** X9: multiplying alpha by a positive factor does not change the
    responsibilities: [calc_z] normalises each column, so an unnormalised
    alpha gives the same [z] as the normalised one. *)
Theorem calc_z_scale_invariant :
  forall (h : heap) (mixtures : list reads) (lambda_t : list addr)
         (theta_high theta_low : list vector) (n : nat) (crit : R) (a : option vector)
         (T : nat) (mu : list vector) (al : vector) (k : R),
    let self := snd (READMeth_init h mixtures lambda_t theta_high theta_low n crit a) in
    valid_input h mixtures lambda_t theta_high theta_low T ->
    length al = T ->
    Forall (fun v => 0 < v) al ->
    (forall w', (w' < length (x self))%nat ->
       length (nth w' mu []) = length (nth w' (x self) [])
       /\ Forall (fun v => 0 <= v <= 1) (nth w' mu [])) ->
    0 < k ->
    calc_z self mu (map (fun v => k * v) al) = calc_z self mu al.
Proof.
  intros h mixtures lambda_t theta_high theta_low n crit a T mu al k self
         Hin Hlen Hpos Hmu Hk.
  pose proof (READMeth_init_ready h mixtures lambda_t theta_high theta_low n crit a T Hin)
    as Hready. fold self in Hready.
  assert (HT : (0 < T)%nat) by apply Hready.
  rewrite (tab_of_length [] (length (x self)) (calc_z self mu (map (fun v => k * v) al)))
    by apply calc_z_length.
  rewrite (tab_of_length [] (length (x self)) (calc_z self mu al)) by apply calc_z_length.
  apply tab_ext. intros w Hw.
  destruct (ready_window self T w Hready Hw) as (HC & Hxm & HL & HLr & _).
  destruct (Hmu w Hw) as [Hml Hmr].
  assert (Hlen' : length (map (fun v => k * v) al) = T) by now rewrite length_map.
  pose proof (calc_z_window self mu _ w T _ Hw HT HC Hlen' Hxm Hml HL) as Hk1.
  pose proof (calc_z_window self mu al w T _ Hw HT HC Hlen Hxm Hml HL) as H1.
  red in Hk1, H1. rewrite Hk1, H1.
  apply tab_ext. intros t0 Ht. apply tab_ext. intros r Hr.
  assert (Hzr : forall t', (t' < T)%nat ->
            0 < z_raw (nth w mu []) (nth w (Lt self) []) al t' r).
  { intros t' Ht'. apply z_raw_pos.
    - apply (Forall_nth_lt _ 0 _ r Hmr). lia.
    - apply (Forall_nth_lt _ 0 _ t' HLr). lia.
    - apply (Forall_nth_lt _ 0 _ t' Hpos). lia. }
  assert (Hs : 0 < Np.sum (tab T (fun t' =>
                 z_raw (nth w mu []) (nth w (Lt self) []) al t' r)))
    by now apply sum_tab_pos.
  rewrite (sum_tab_eq T _ (fun t' =>
             k * z_raw (nth w mu []) (nth w (Lt self) []) al t' r))
    by (intros t' Ht'; apply z_raw_scale; lia).
  rewrite sum_tab_scal, z_raw_scale by lia.
  field. lra.
Qed.

(* ================================================================= *)
(** ** [calc_mu] without logarithms *)

Lemma exp_log_mid (a b d : R) :
  0 < a -> 0 < d -> exp (ln a * 1 + b * 1 + ln d) = exp b * (a * d).
Proof.
  intros Ha Hd. rewrite !Rmult_1_r, !exp_plus, !exp_ln by assumption. ring.
Qed.

Lemma log_mix_direct (wts : nat -> R) (log_w logp : vector) (z_win : matrix) (T r : nat) :
  (0 < T)%nat ->
  (forall t0, (t0 < T)%nat -> 0 < wts t0 /\ nth t0 log_w 0 = ln (wts t0)) ->
  (forall t0, (t0 < T)%nat -> 0 < nth r (nth t0 z_win []) 0) ->
  let s := exp (nth r logp 0)
           * Np.sum (tab T (fun t0 => wts t0 * nth r (nth t0 z_win []) 0)) in
  0 < s /\ log_mix log_w logp z_win T r = ln s.
Proof.
  intros HT Hw Hz s.
  assert (Hs : 0 < Np.sum (tab T (fun t0 => wts t0 * nth r (nth t0 z_win []) 0))).
  { apply sum_tab_pos; [exact HT|]. intros t0 Ht.
    apply Rmult_lt_0_compat; [apply (Hw t0 Ht)|now apply Hz]. }
  split; [apply Rmult_lt_0_compat; [apply exp_pos|exact Hs]|].
  unfold log_mix, s. f_equal. rewrite <- sum_tab_scal. apply sum_tab_eq.
  intros t0 Ht. destruct (Hw t0 Ht) as [Hpos ->]. apply exp_log_mid; [exact Hpos|].
  now apply Hz.
Qed.

Lemma calc_mu_entry (self : READMeth) (T : nat) (al : vector) (z : list matrix)
    (w r : nat) :
  em_ready self T -> length al = T -> z_ok self T z ->
  (w < length (x self))%nat -> (r < length (nth w (x self) []))%nat ->
  nth r (nth w (calc_mu self al z) []) 0 = direct_mu self (nth w z []) T w r.
Proof.
  intros Hready Hal [Hzl Hz] Hw Hr.
  assert (HT : (0 < T)%nat) by apply Hready.
  assert (HlenL : length (Lt self) = length (x self)) by apply Hready.
  assert (HlogL : log_Lt self = map (map ln) (Lt self)) by apply Hready.
  assert (Hlog1 : log_one_minus_Lt self = map (map (fun l => ln (1 - l))) (Lt self))
    by apply Hready.
  destruct (ready_window self T w Hready Hw)
    as (HC & Hxm & HL & HLr & HlL & Hl1 & HlH & HlLo).
  destruct (Hz w Hw) as [Hshape Hp].
  pose proof (calc_mu_window self al z w T _ Hw HT HC Hal Hxm HlL Hl1 HlH HlLo Hshape)
    as Hvec.
  rewrite (is_vec_entry _ _ _ r Hvec Hr). cbv zeta.
  assert (Hzpos : forall t0, (t0 < T)%nat -> 0 < nth r (nth t0 (nth w z []) []) 0).
  { intros t0 Ht. destruct Hshape as [Hrows Hcols].
    apply (Forall_nth_lt _ 0 _ r (Forall_nth_lt _ [] _ t0 Hp ltac:(lia))).
    rewrite (Forall_nth_lt _ [] _ t0 Hcols) by lia. exact Hr. }
  assert (HLt : forall t0, (t0 < T)%nat -> 0 < nth t0 (nth w (Lt self) []) 0 < 1).
  { intros t0 Ht. apply (Forall_nth_lt _ 0 _ t0 HLr). lia. }
  destruct (log_mix_direct (fun t0 => nth t0 (nth w (Lt self) []) 0)
              (nth w (log_Lt self) []) (nth w (log_x_given_H self) [])
              (nth w z []) T r HT) as [HA EA].
  { intros t0 Ht. split; [apply HLt, Ht|].
    rewrite HlogL, (nth_map_lt (map ln) (Lt self) [] [] w) by lia.
    apply (nth_map_lt ln). lia. }
  { exact Hzpos. }
  destruct (log_mix_direct (fun t0 => 1 - nth t0 (nth w (Lt self) []) 0)
              (nth w (log_one_minus_Lt self) []) (nth w (log_x_given_L self) [])
              (nth w z []) T r HT) as [HB EB].
  { intros t0 Ht. split; [pose proof (HLt t0 Ht); lra|].
    rewrite Hlog1, (nth_map_lt (map (fun l => ln (1 - l))) (Lt self) [] [] w) by lia.
    apply (nth_map_lt (fun l => ln (1 - l))). lia. }
  { exact Hzpos. }
  cbv zeta in HA, EA, HB, EB. rewrite EA, EB.
  rewrite softmax2_ratio by assumption. reflexivity.
Qed.

(** X10: on valid input and for responsibilities of positive entries,
    the log-space computation of [calc_mu] equals the direct one: for each
    read, [high / (high + low)] with
    [high = P(x|H) * sum_t lambda[t] * z[t,r]] and
    [low = P(x|L) * sum_t (1 - lambda[t]) * z[t,r]]. *)
Theorem calc_mu_direct_form :
  forall (h : heap) (mixtures : list reads) (lambda_t : list addr)
         (theta_high theta_low : list vector) (n : nat) (crit : R) (a : option vector)
         (T : nat) (al : vector) (z : list matrix) (w r : nat),
    let self := snd (READMeth_init h mixtures lambda_t theta_high theta_low n crit a) in
    let P_H := exp (nth r (nth w (log_x_given_H self) []) 0) in
    let P_L := exp (nth r (nth w (log_x_given_L self) []) 0) in
    let lam := fun t0 => nth t0 (nth w (Lt self) []) 0 in
    let zc := fun t0 => nth r (nth t0 (nth w z []) []) 0 in
    let high := P_H * Np.sum (tab T (fun t0 => lam t0 * zc t0)) in
    let low := P_L * Np.sum (tab T (fun t0 => (1 - lam t0) * zc t0)) in
    valid_input h mixtures lambda_t theta_high theta_low T ->
    length al = T ->
    z_ok self T z ->
    (w < length (x self))%nat -> (r < length (nth w (x self) []))%nat ->
    nth r (nth w (calc_mu self al z) []) 0 = high / (high + low).
Proof.
  intros h mixtures lambda_t theta_high theta_low n crit a T al z w r self
         P_H P_L lam zc high low Hin Hal Hz Hw Hr.
  pose proof (READMeth_init_ready h mixtures lambda_t theta_high theta_low n crit a T Hin)
    as Hready. fold self in Hready.
  rewrite (calc_mu_entry self T al z w r Hready Hal Hz Hw Hr). reflexivity.
Qed.

Lemma alpha_as_z_ok (self : READMeth) (T : nat) (al : vector) :
  em_ready self T -> length al = T -> Forall (fun v => 0 < v) al ->
  z_ok self T (map (fun x_win : reads => Np.transpose (Np.tile al (length x_win))) (x self))
  /\ forall w t0 r, (w < length (x self))%nat -> (t0 < T)%nat ->
       (r < length (nth w (x self) []))%nat ->
       nth r (nth t0 (nth w (map (fun x_win : reads =>
                                    Np.transpose (Np.tile al (length x_win))) (x self))
                        []) []) 0
       = nth t0 al 0.
Proof.
  intros Hready Hal Hpos.
  assert (Hmat : forall w, (w < length (x self))%nat ->
            is_mat (nth w (map (fun x_win : reads =>
                                  Np.transpose (Np.tile al (length x_win))) (x self)) [])
              T (length (nth w (x self) [])) (fun t0 _ => nth t0 al 0)).
  { intros w Hw.
    destruct (ready_window self T w Hready Hw) as (HC & _).
    rewrite (nth_map_lt (fun x_win : reads => Np.transpose (Np.tile al (length x_win)))
               (x self) [] [] w Hw).
    eapply is_mat_ext; [arrays|]. intros i j _ _. reflexivity. }
  split.
  - split; [apply length_map|]. intros w Hw. specialize (Hmat w Hw).
    split; [eapply is_mat_has_shape; exact Hmat|].
    red in Hmat. rewrite Hmat. apply Forall_tab. intros t0 Ht. apply Forall_tab.
    intros r _. apply (Forall_nth_lt _ 0 al t0 Hpos). lia.
  - intros w t0 r Hw Ht Hr. now rewrite (is_mat_entry _ _ _ _ t0 r (Hmat w Hw)).
Qed.

(** X11: [init_mu_no_log] is [calc_mu] with alpha standing in for the
    responsibilities: on valid input and for an alpha of positive entries,
    it returns what [calc_mu] returns for the matrices whose entry [t,r] is
    [alpha[t]] for every read [r]. *)
Theorem init_mu_no_log_is_calc_mu_on_alpha :
  forall (h : heap) (mixtures : list reads) (lambda_t : list addr)
         (theta_high theta_low : list vector) (n : nat) (crit : R) (a : option vector)
         (T : nat) (al : vector),
    let self := snd (READMeth_init h mixtures lambda_t theta_high theta_low n crit a) in
    valid_input h mixtures lambda_t theta_high theta_low T ->
    length al = T ->
    Forall (fun v => 0 < v) al ->
    init_mu_no_log self al
    = calc_mu self al
        (map (fun x_win : reads => Np.transpose (Np.tile al (length x_win))) (x self)).
Proof.
  intros h mixtures lambda_t theta_high theta_low n crit a T al self Hin Hal Hpos.
  pose proof (READMeth_init_ready h mixtures lambda_t theta_high theta_low n crit a T Hin)
    as Hready. fold self in Hready.
  assert (HT : (0 < T)%nat) by apply Hready.
  assert (HlenH : length (thetaH self) = length (x self)) by apply Hready.
  destruct (alpha_as_z_ok self T al Hready Hal Hpos) as [Hz Hentry].
  set (z := map (fun x_win : reads => Np.transpose (Np.tile al (length x_win))) (x self))
    in *.
  rewrite (tab_of_length [] (length (x self)) (init_mu_no_log self al))
    by now rewrite init_mu_no_log_length.
  rewrite (tab_of_length [] (length (x self)) (calc_mu self al z))
    by apply calc_mu_length.
  apply tab_ext. intros w Hw.
  destruct (ready_window self T w Hready Hw)
    as (HC & Hxm & HL & HLr & HlL & Hl1 & HlH & HlLo).
  pose proof (init_mu_no_log_window self al w T _ ltac:(lia) HT HC Hal Hxm HL HlH HlLo)
    as Hinit.
  destruct (calc_mu_ok self T al z Hready Hal Hz) as [_ Hmu].
  destruct (Hmu w Hw) as [Hlen _].
  red in Hinit. rewrite Hinit.
  rewrite (tab_of_length 0 _ (nth w (calc_mu self al z) []) Hlen).
  apply tab_ext. intros r Hr. cbv zeta.
  rewrite (calc_mu_entry self T al z w r Hready Hal Hz Hw Hr).
  unfold direct_mu, init_mix. cbv zeta.
  rewrite !sum_tab_scal.
  rewrite (sum_tab_eq T (fun t0 => nth t0 al 0 * nth t0 (nth w (Lt self) []) 0 * 1)
             (fun t0 => nth t0 (nth w (Lt self) []) 0 * nth r (nth t0 (nth w z []) []) 0))
    by (intros t0 Ht; rewrite (Hentry w t0 r Hw Ht Hr); ring).
  rewrite (sum_tab_eq T (fun t0 => nth t0 al 0 * (1 - nth t0 (nth w (Lt self) []) 0) * 1)
             (fun t0 => (1 - nth t0 (nth w (Lt self) []) 0)
                        * nth r (nth t0 (nth w z []) []) 0))
    by (intros t0 Ht; rewrite (Hentry w t0 r Hw Ht Hr); ring).
  reflexivity.
Qed.

(* ================================================================= *)
(** ** The log-likelihood *)

Lemma fold_left_sum (F : R -> nat -> R) (g : nat -> R) (l : list nat) (a0 : R) :
  (forall acc v, In v l -> F acc v = acc + g v) ->
  fold_left F l a0 = a0 + Np.sum (map g l).
Proof.
  revert a0. induction l as [|v l IH]; intros a0 H; cbn [fold_left map].
  - rewrite sum_nil. lra.
  - rewrite IH by (intros acc u Hu; apply H; now right).
    rewrite (H a0 v) by now left. rewrite sum_cons. lra.
Qed.

Lemma exp_log_pair (a b : R) : 0 < a -> exp (ln a * 1 + b * 1) = a * exp b.
Proof. intros Ha. now rewrite !Rmult_1_r, exp_plus, exp_ln. Qed.

Lemma exp_log_sum (a s : R) : 0 < a -> 0 < s -> exp (ln a * 1 + ln s) = a * s.
Proof. intros Ha Hs. now rewrite Rmult_1_r, exp_plus, !exp_ln. Qed.

Lemma epistate_mix_pos (l p q : R) : 0 < l < 1 -> 0 < l * exp p + (1 - l) * exp q.
Proof.
  intros Hl. pose proof (exp_pos p). pose proof (exp_pos q).
  assert (0 < l * exp p) by (apply Rmult_lt_0_compat; lra).
  assert (0 < (1 - l) * exp q) by (apply Rmult_lt_0_compat; lra). lra.
Qed.

Lemma read_likelihood_pos (self : READMeth) (T : nat) (al : vector) (w r : nat) :
  em_ready self T -> length al = T -> Forall (fun v => 0 < v) al ->
  (w < length (x self))%nat ->
  0 < read_likelihood self al w r.
Proof.
  intros Hready Hal Hpos Hw.
  assert (HT : (0 < T)%nat) by apply Hready.
  destruct (ready_window self T w Hready Hw) as (_ & _ & HL & HLr & _).
  unfold read_likelihood. rewrite Hal. apply sum_tab_pos; [exact HT|].
  intros t0 Ht. apply Rmult_lt_0_compat.
  - apply (Forall_nth_lt _ 0 al t0 Hpos). lia.
  - apply epistate_mix_pos. apply (Forall_nth_lt _ 0 _ t0 HLr). lia.
Qed.

Lemma log_likelihood_ready (self : READMeth) (T : nat) (al : vector) :
  em_ready self T -> length al = T -> Forall (fun v => 0 < v) al ->
  log_likelihood self al = mixture_loglik self al.
Proof.
  intros Hready Hal Hpos.
  assert (HT : (0 < T)%nat) by apply Hready.
  assert (HlenL : length (Lt self) = length (x self)) by apply Hready.
  assert (HlogL : log_Lt self = map (map ln) (Lt self)) by apply Hready.
  assert (Hlog1 : log_one_minus_Lt self = map (map (fun l => ln (1 - l))) (Lt self))
    by apply Hready.
  unfold log_likelihood, mixture_loglik.
  rewrite (fold_left_sum _
             (fun w => Np.sum (tab (length (nth w (x self) []))
                                 (fun r => ln (read_likelihood self al w r))))).
  { rewrite Rplus_0_l. reflexivity. }
  intros acc w Hw. apply in_seq in Hw. cbv zeta. f_equal. f_equal.
  assert (Hw' : (w < length (x self))%nat) by lia.
  destruct (ready_window self T w Hready Hw')
    as (HC & Hxm & HL & HLr & HlL & Hl1 & HlH & HlLo).
  rewrite HlL, HlH.
  assert (HLt : forall t0, (t0 < T)%nat -> 0 < nth t0 (nth w (Lt self) []) 0 < 1).
  { intros t0 Ht. apply (Forall_nth_lt _ 0 _ t0 HLr). lia. }
  eapply is_vec_ext; [arrays|].
  intros r Hr. cbv beta. f_equal. unfold read_likelihood. rewrite Hal.
  apply sum_tab_eq. intros t0 Ht.
  rewrite HlogL, Hlog1.
  rewrite (nth_map_lt (map ln) (Lt self) [] [] w) by lia.
  rewrite (nth_map_lt (map (fun l => ln (1 - l))) (Lt self) [] [] w) by lia.
  rewrite (nth_map_lt ln (nth w (Lt self) []) 0 0 t0) by lia.
  rewrite (nth_map_lt (fun l => ln (1 - l)) (nth w (Lt self) []) 0 0 t0) by lia.
  pose proof (HLt t0 Ht) as Hl.
  rewrite !exp_log_pair by lra.
  apply exp_log_sum.
  - apply (Forall_nth_lt _ 0 al t0 Hpos). lia.
  - now apply epistate_mix_pos.
Qed.

(** X12: on valid input and for an alpha of positive entries, the two
    nested log-sum-exps of [log_likelihood] compute the log-likelihood of
    the two-level mixture: the sum, over all reads of all retained windows,
    of [log sum_t alpha[t] * (lambda[t] * P(x|H) + (1 - lambda[t]) * P(x|L))]. *)
Theorem log_likelihood_is_mixture_loglik :
  forall (h : heap) (mixtures : list reads) (lambda_t : list addr)
         (theta_high theta_low : list vector) (n : nat) (crit : R) (a : option vector)
         (T : nat) (al : vector),
    let self := snd (READMeth_init h mixtures lambda_t theta_high theta_low n crit a) in
    valid_input h mixtures lambda_t theta_high theta_low T ->
    length al = T ->
    Forall (fun v => 0 < v) al ->
    log_likelihood self al
    = Np.sum
        (tab (length (x self))
           (fun w =>
              Np.sum
                (tab (length (nth w (x self) []))
                   (fun r =>
                      ln (Np.sum
                            (tab T
                               (fun t0 =>
                                  nth t0 al 0
                                  * (nth t0 (nth w (Lt self) []) 0
                                     * exp (nth r (nth w (log_x_given_H self) []) 0)
                                     + (1 - nth t0 (nth w (Lt self) []) 0)
                                       * exp (nth r (nth w (log_x_given_L self) []) 0))))))))).
Proof.
  intros h mixtures lambda_t theta_high theta_low n crit a T al self Hin Hal Hpos.
  pose proof (READMeth_init_ready h mixtures lambda_t theta_high theta_low n crit a T Hin)
    as Hready. fold self in Hready.
  rewrite (log_likelihood_ready self T al Hready Hal Hpos).
  unfold mixture_loglik, read_likelihood. now rewrite Hal.
Qed.

Lemma read_likelihood_le_1 (self : READMeth) (T : nat) (al : vector) (w r : nat) :
  em_ready self T -> proportions T al -> (w < length (x self))%nat ->
  nth r (nth w (log_x_given_H self) []) 0 <= 0 ->
  nth r (nth w (log_x_given_L self) []) 0 <= 0 ->
  read_likelihood self al w r <= 1.
Proof.
  intros Hready (Hal & Hpos & Hsum) Hw HH HL0.
  destruct (ready_window self T w Hready Hw) as (_ & _ & HL & HLr & _).
  unfold read_likelihood. rewrite Hal, <- Hsum.
  rewrite (tab_of_length 0 T al Hal) at 1.
  assert (E : forall n0 (f g : nat -> R),
             (forall i, (i < n0)%nat -> f i <= g i) ->
             Np.sum (tab n0 f) <= Np.sum (tab n0 g)).
  { induction n0 as [|n0 IH]; intros f g Hfg.
    - change (tab 0 f) with (@nil R). change (tab 0 g) with (@nil R). lra.
    - rewrite !tab_S, !sum_cons.
      specialize (IH (fun k => f (S k)) (fun k => g (S k))
                     (fun i Hi => Hfg (S i) ltac:(lia))).
      pose proof (Hfg 0%nat ltac:(lia)). lra. }
  apply E. intros t0 Ht.
  assert (Ha : 0 < nth t0 al 0) by (apply (Forall_nth_lt _ 0 al t0 Hpos); lia).
  assert (Hl : 0 < nth t0 (nth w (Lt self) []) 0 < 1)
    by (apply (Forall_nth_lt _ 0 _ t0 HLr); lia).
  assert (HeH : exp (nth r (nth w (log_x_given_H self) []) 0) <= 1).
  { rewrite <- exp_0. destruct HH as [HH|HH]; [left; now apply exp_increasing|].
    rewrite HH. lra. }
  assert (HeL : exp (nth r (nth w (log_x_given_L self) []) 0) <= 1).
  { rewrite <- exp_0. destruct HL0 as [HL0|HL0]; [left; now apply exp_increasing|].
    rewrite HL0. lra. }
  rewrite <- (Rmult_1_r (nth t0 al 0)) at 2.
  apply Rmult_le_compat_l; [lra|]. nra.
Qed.

(** X13: on valid input, with [theta_high] and [theta_low] strictly
    between 0 and 1 and an alpha of positive entries summing to 1, the
    log-likelihood is never positive (each read has likelihood at most 1). *)
Theorem log_likelihood_nonpositive :
  forall (h : heap) (mixtures : list reads) (lambda_t : list addr)
         (theta_high theta_low : list vector) (n : nat) (crit : R) (a : option vector)
         (T : nat) (al : vector),
    let self := snd (READMeth_init h mixtures lambda_t theta_high theta_low n crit a) in
    valid_input h mixtures lambda_t theta_high theta_low T ->
    Forall (Forall (fun th => 0 < th < 1)) theta_high ->
    Forall (Forall (fun th => 0 < th < 1)) theta_low ->
    length al = T ->
    Forall (fun v => 0 < v) al ->
    Np.sum al = 1 ->
    log_likelihood self al <= 0.
Proof.
  intros h mixtures lambda_t theta_high theta_low n crit a T al self
         Hin HthH HthL Hal Hpos Hsum.
  pose proof (READMeth_init_ready h mixtures lambda_t theta_high theta_low n crit a T Hin)
    as Hready. fold self in Hready.
  destruct Hin as (Hl & Hh & Hlo & _).
  assert (Hlogs : forall (theta : list vector) w r,
            Forall (Forall (fun th => 0 < th < 1)) theta ->
            length theta = length mixtures ->
            (w < length (x self))%nat -> (r < length (nth w (x self) []))%nat ->
            nth r (nth w (calc_x_given_prob (x self) (map (eq_mask METHYLATED) (x self))
                            (map (eq_mask UNMETHYLATED) (x self))
                            (Np.mask_select (map has_value mixtures) theta)) []) 0 <= 0).
  { intros theta w r Hth Hlen Hw Hr.
    rewrite calc_x_given_prob_entry by assumption.
    apply site_loglik_nonpos.
    assert (Hsel : length (Np.mask_select (map has_value mixtures) theta) = length (x self)).
    { apply mask_select_length; rewrite length_map; lia. }
    rewrite Forall_forall in Hth. apply Hth.
    apply (mask_select_incl (map has_value mixtures)).
    apply nth_In. lia. }
  rewrite (log_likelihood_ready self T al Hready Hal Hpos).
  unfold mixture_loglik.
  assert (Hneg : forall n0 (f : nat -> R),
             (forall i, (i < n0)%nat -> f i <= 0) -> Np.sum (tab n0 f) <= 0).
  { induction n0 as [|n0 IH]; intros f Hf.
    - change (tab 0 f) with (@nil R). rewrite sum_nil. lra.
    - rewrite tab_S, sum_cons.
      specialize (IH (fun k => f (S k)) (fun i Hi => Hf (S i) ltac:(lia))).
      pose proof (Hf 0%nat ltac:(lia)). lra. }
  apply Hneg. intros w Hw. apply Hneg. intros r Hr.
  pose proof (read_likelihood_pos self T al w r Hready Hal Hpos Hw) as Hp.
  assert (Hle : read_likelihood self al w r <= 1).
  { apply (read_likelihood_le_1 self T); try assumption.
    - now repeat split.
    - now apply (Hlogs theta_high).
    - now apply (Hlogs theta_low). }
  rewrite <- ln_1. destruct Hle as [Hlt|Heq]; [left; now apply ln_increasing|].
  rewrite Heq. lra.
Qed.

(* ================================================================= *)
(** ** The further properties at the small data set *)

Lemma ex_z_ok : z_ok ex_engine 2 [[[13/31]; [18/31]]].
Proof.
  split; [reflexivity|]. intros w Hw. change (x ex_engine) with [[[METHYLATED]]] in *.
  destruct w as [|w]; [|simpl in Hw; lia].
  split; [split; [reflexivity|repeat constructor]|repeat constructor; lra].
Qed.

Lemma ex_mu_half :
  forall w', (w' < length (x ex_engine))%nat ->
    length (nth w' [[1/2]] []) = length (nth w' (x ex_engine) [])
    /\ Forall (fun v => 0 <= v <= 1) (nth w' [[1/2]] []).
Proof.
  intros w' Hw'. change (x ex_engine) with [[[METHYLATED]]] in *.
  destruct w' as [|w']; [|simpl in Hw'; lia].
  split; [reflexivity|]. repeat constructor; lra.
Qed.

Lemma ex_alpha_pos : Forall (fun v => 0 < v) ex_alpha.
Proof. unfold ex_alpha. repeat constructor; lra. Qed.

Lemma ex_theta_open :
  Forall (Forall (fun th => 0 < th < 1)) ex_theta_high
  /\ Forall (Forall (fun th => 0 < th < 1)) ex_theta_low.
Proof. split; repeat constructor; lra. Qed.

Lemma em_exhausted_returns_last_candidate_witness :
  em ex_uniform ex_engine_strict
  = (st_new_alpha (em_run ex_uniform ex_engine_strict 3), 2%nat).
Proof.
  apply (em_exhausted_returns_last_candidate ex_uniform ex_engine_strict).
  - change (num_iterations ex_engine_strict) with 3%nat. lia.
  - apply nonpositive_criteria_runs_through.
    change (convergence_criteria ex_engine_strict) with 0. lra.
Defined.

Lemma nonpositive_criteria_never_converges_witness :
  em ex_uniform ex_engine_strict
  = (st_new_alpha (em_run ex_uniform ex_engine_strict 3), 2%nat).
Proof.
  apply (nonpositive_criteria_never_converges ex_uniform ex_engine_strict).
  - change (convergence_criteria ex_engine_strict) with 0. lra.
  - change (num_iterations ex_engine_strict) with 3%nat. lia.
Defined.

Lemma constructor_keeps_informative_input_witness :
  x (snd (READMeth_init ex_heap [[[METHYLATED; NOVAL]]; [[UNMETHYLATED]]] ex_lambda_t
            ex_theta_high ex_theta_low 50 10 None))
  = [[[METHYLATED; NOVAL]]; [[UNMETHYLATED]]]
  /\ Lt_obj (snd (READMeth_init ex_heap [[[METHYLATED; NOVAL]]; [[UNMETHYLATED]]]
                    ex_lambda_t ex_theta_high ex_theta_low 50 10 None))
     = ex_lambda_t.
Proof.
  destruct (constructor_keeps_informative_input ex_heap
              [[[METHYLATED; NOVAL]]; [[UNMETHYLATED]]] ex_lambda_t
              ex_theta_high ex_theta_low 50 10 None) as [_ H]; try reflexivity.
  destruct H as (H1 & H2 & _).
  - repeat constructor.
    + exists [METHYLATED; NOVAL], METHYLATED.
      split; [now left|]. split; [now left|discriminate].
    + exists [UNMETHYLATED], UNMETHYLATED.
      split; [now left|]. split; [now left|discriminate].
  - split; [exact H1|exact H2].
Defined.

Lemma calc_x_given_prob_range_witness :
  nth 0 (nth 0 (calc_x_given_prob (x ex_engine) (x_c_m ex_engine) (x_c_u ex_engine)
                  ex_theta_high) []) 0 <= 0.
Proof.
  destruct (calc_x_given_prob_range ex_heap ex_mixtures ex_lambda_t ex_theta_high
              ex_theta_low 50 10 (Some ex_alpha) ex_theta_high 0 0) as [_ H].
  - change (x ex_engine) with [[[METHYLATED]]]. simpl. lia.
  - change (x ex_engine) with [[[METHYLATED]]]. simpl. lia.
  - apply H. cbn [ex_theta_high nth]. repeat constructor; lra.
Defined.

Lemma alpha_stays_a_distribution_witness :
  length (fst (em ex_uniform ex_engine)) = 2%nat
  /\ Forall (fun v => 0 <= v <= 1) (fst (em ex_uniform ex_engine))
  /\ Np.sum (fst (em ex_uniform ex_engine)) = 1.
Proof.
  apply (alpha_stays_a_distribution ex_heap ex_mixtures ex_lambda_t ex_theta_high
           ex_theta_low 50 10 (Some ex_alpha) ex_uniform 2
           ex_valid_input ex_valid_alpha).
Defined.

Lemma calc_z_entries_in_unit_interval_witness :
  0 <= nth 0 (nth 1 (nth 0 (calc_z ex_engine [[1/2]] ex_alpha) []) []) 0 <= 1.
Proof.
  apply (calc_z_entries_in_unit_interval ex_heap ex_mixtures ex_lambda_t ex_theta_high
           ex_theta_low 50 10 (Some ex_alpha) 2 [[1/2]] ex_alpha 0 1 0 ex_valid_input).
  - reflexivity.
  - apply ex_alpha_pos.
  - apply ex_mu_half.
  - change (x ex_engine) with [[[METHYLATED]]]. simpl. lia.
  - lia.
  - change (x ex_engine) with [[[METHYLATED]]]. simpl. lia.
Defined.

Lemma maximization_after_calc_z_witness :
  maximization ex_engine (calc_z ex_engine [[1/2]] ex_alpha)
  = map (fun s => s / INR (c ex_engine))
      (Np.sum_axis1 (Np.hstack (calc_z ex_engine [[1/2]] ex_alpha))).
Proof.
  apply (maximization_after_calc_z ex_heap ex_mixtures ex_lambda_t ex_theta_high
           ex_theta_low 50 10 (Some ex_alpha) 2 [[1/2]] ex_alpha ex_valid_input).
  - reflexivity.
  - apply ex_alpha_pos.
  - apply ex_mu_half.
Defined.

Lemma calc_z_scale_invariant_witness :
  calc_z ex_engine [[1/2]] (map (fun v => 3 * v) ex_alpha)
  = calc_z ex_engine [[1/2]] ex_alpha.
Proof.
  apply (calc_z_scale_invariant ex_heap ex_mixtures ex_lambda_t ex_theta_high
           ex_theta_low 50 10 (Some ex_alpha) 2 [[1/2]] ex_alpha 3 ex_valid_input).
  - reflexivity.
  - apply ex_alpha_pos.
  - apply ex_mu_half.
  - lra.
Defined.

Lemma calc_mu_direct_form_witness :
  nth 0 (nth 0 (calc_mu ex_engine ex_alpha [[[13/31]; [18/31]]]) []) 0
  = direct_mu ex_engine [[13/31]; [18/31]] 2 0 0.
Proof.
  apply (calc_mu_direct_form ex_heap ex_mixtures ex_lambda_t ex_theta_high
           ex_theta_low 50 10 (Some ex_alpha) 2 ex_alpha [[[13/31]; [18/31]]] 0 0
           ex_valid_input).
  - reflexivity.
  - apply ex_z_ok.
  - change (x ex_engine) with [[[METHYLATED]]]. simpl. lia.
  - change (x ex_engine) with [[[METHYLATED]]]. simpl. lia.
Defined.

Lemma init_mu_no_log_is_calc_mu_on_alpha_witness :
  init_mu_no_log ex_engine ex_alpha
  = calc_mu ex_engine ex_alpha
      (map (fun x_win : reads => Np.transpose (Np.tile ex_alpha (length x_win)))
         (x ex_engine)).
Proof.
  apply (init_mu_no_log_is_calc_mu_on_alpha ex_heap ex_mixtures ex_lambda_t
           ex_theta_high ex_theta_low 50 10 (Some ex_alpha) 2 ex_alpha ex_valid_input).
  - reflexivity.
  - apply ex_alpha_pos.
Defined.

Lemma log_likelihood_is_mixture_loglik_witness :
  log_likelihood ex_engine ex_alpha = mixture_loglik ex_engine ex_alpha.
Proof.
  apply (log_likelihood_is_mixture_loglik ex_heap ex_mixtures ex_lambda_t
           ex_theta_high ex_theta_low 50 10 (Some ex_alpha) 2 ex_alpha ex_valid_input).
  - reflexivity.
  - apply ex_alpha_pos.
Defined.

Lemma log_likelihood_nonpositive_witness :
  log_likelihood ex_engine ex_alpha <= 0.
Proof.
  apply (log_likelihood_nonpositive ex_heap ex_mixtures ex_lambda_t
           ex_theta_high ex_theta_low 50 10 (Some ex_alpha) 2 ex_alpha ex_valid_input).
  - apply ex_theta_open.
  - apply ex_theta_open.
  - reflexivity.
  - apply ex_alpha_pos.
  - apply ex_valid_alpha.
Defined.

(* ================================================================= *)
(** ** The range of [mu] *)



